(** * space-game: a shallow embedding of [src/main.ts]

    The simulation core of the arcade shooter: hit boxes and their overlap
    test, shots, the player's weapon, the player, enemies and the game
    controller with its per-frame update, its three collision passes and
    its spawn timer.

    Conventions of the embedding.
    - A TypeScript [number] is a rational [Q].  Every coordinate the
      program computes is a multiple of one half (canvas dimensions are
      integers, and the program only adds, subtracts and halves small
      constants), so the arithmetic of the program is exact on them.
    - An object is a record; a method that mutates [this] is a function
      to the updated record.  Rendering calls on the canvas context leave
      the state alone and are dropped; the assignments that [draw]
      methods make to hit boxes are kept.
    - An array is a [list] with index 0 at the head: [unshift] is cons,
      [pop] is [removelast], [a.splice(i, 1)] is [splice1 i a].
    - One class, one [Module], with the members' source names. *)

From Stdlib Require Import QArith ZArith List Bool Lia Lqa.
Import ListNotations.

Set Implicit Arguments.
Open Scope Q_scope.

(** ** Numbers and arrays *)

(** [a < b] on numbers. *)
Definition Qltb (a b : Q) : bool := negb (Qle_bool b a).

(** [a > b] on numbers. *)
Definition Qgtb (a b : Q) : bool := Qltb b a.

(** [a.splice(i, 1)]: drops the element at index [i]; out of range it
    leaves the array as it is. *)
Definition splice1 {A : Type} (i : nat) (a : list A) : list A :=
  firstn i a ++ skipn (S i) a.

(** [a.pop()], its return value discarded. *)
Definition pop {A : Type} (a : list A) : list A := removelast a.

(** [a.unshift(v)]. *)
Definition unshift {A : Type} (v : A) (a : list A) : list A := v :: a.

(** The part of [HTMLCanvasElement] the simulation reads. *)
Record Canvas := mkCanvas { width : Q; height : Q }.

(** ** enum PlayerDirection *)
Module PlayerDirection.
Inductive t := Up | Left | Down | Right.

(** [a === b] on directions. *)
Definition eqb (a b : t) : bool :=
  match a, b with
  | Up, Up | Left, Left | Down, Down | Right, Right => true
  | _, _ => false
  end.
End PlayerDirection.
Import PlayerDirection(Up, Left, Down, Right).

(** ** class HitBox *)
Module HitBox.
(** The [_options] object ([HitBoxOptions] without the context). *)
Record t := mk { x : Q; y : Q; w : Q; h : Q }.

Definition collision (this hitbox : t) : bool :=
  Qltb (x this) (x hitbox + w hitbox) &&
  Qgtb (x this + w this) (x hitbox) &&
  Qltb (y this) (y hitbox + h hitbox) &&
  Qgtb (y this + h this) (y hitbox).

Definition set_xy (this : t) (x' y' : Q) : t := mk x' y' (w this) (h this).
End HitBox.

(** ** class PlayerWeaponShot *)
Module PlayerWeaponShot.
Definition _size : Q := 5.
Definition _speed : Q := 3.

(** [x], [y], [direction] and [defaultWeaponWidth] are the fields of the
    shot's own [_options] object. *)
Record t := mk {
  x : Q;
  y : Q;
  direction : PlayerDirection.t;
  defaultWeaponWidth : Q;
  hitbox : HitBox.t
}.

Definition new (x y : Q) (direction : PlayerDirection.t)
    (defaultWeaponWidth : Q) : t :=
  mk x y direction defaultWeaponWidth (HitBox.mk x y _size _size).

Definition set_hitbox (this : t) (hb : HitBox.t) : t :=
  mk (x this) (y this) (direction this) (defaultWeaponWidth this) hb.

Definition set_x (this : t) (x' : Q) : t :=
  mk x' (y this) (direction this) (defaultWeaponWidth this) (hitbox this).

Definition set_y (this : t) (y' : Q) : t :=
  mk (x this) y' (direction this) (defaultWeaponWidth this) (hitbox this).

Definition draw (this : t) : t :=
  let this :=
    if PlayerDirection.eqb (direction this) Up then
      set_hitbox this
        (HitBox.set_xy (hitbox this)
           (x this + _size + _size / 2 - _size)
           (y this - _size))
    else this in
  let this :=
    if PlayerDirection.eqb (direction this) Left then
      set_hitbox this
        (HitBox.set_xy (hitbox this)
           (x this - _size)
           (y this + _size + _size / 2 - _size))
    else this in
  let this :=
    if PlayerDirection.eqb (direction this) Down then
      set_hitbox this
        (HitBox.set_xy (hitbox this)
           (x this + _size + _size / 2 - _size)
           (y this + defaultWeaponWidth this - _size))
    else this in
  let this :=
    if PlayerDirection.eqb (direction this) Right then
      set_hitbox this
        (HitBox.set_xy (hitbox this)
           (x this + defaultWeaponWidth this - _size)
           (y this + _size + _size / 2 - _size))
    else this in
  this.

Definition update (this : t) : t :=
  let this :=
    if PlayerDirection.eqb (direction this) Up
    then set_y this (y this - _speed) else this in
  let this :=
    if PlayerDirection.eqb (direction this) Left
    then set_x this (x this - _speed) else this in
  let this :=
    if PlayerDirection.eqb (direction this) Down
    then set_y this (y this + _speed) else this in
  let this :=
    if PlayerDirection.eqb (direction this) Right
    then set_x this (x this + _speed) else this in
  this.
End PlayerWeaponShot.

(** ** class PlayerWeapon *)
Module PlayerWeapon.
Record t := mk {
  x : Q;
  y : Q;
  w : Q;
  defaultWidth : Q;
  h : Q;
  defaultHeight : Q;
  shots : list PlayerWeaponShot.t;
  ammo : Z;
  hitbox : HitBox.t
}.

(** Field initialisers first ([_x = 0], [_y = 0], [_h = 15],
    [_defaultHeight = this._h], [_shots = []], [_ammo = 3]), then the
    constructor's body. *)
Definition new (playerWidth : Q) : t :=
  let _x := 0 in
  let _y := 0 in
  let _h := 15 in
  let _defaultHeight := _h in
  let _w := playerWidth / 2 in
  let _defaultWidth := _w in
  mk _x _y _w _defaultWidth _h _defaultHeight [] 3%Z
     (HitBox.mk _x _y _w _h).

Definition set_shots (this : t) (s : list PlayerWeaponShot.t) : t :=
  mk (x this) (y this) (w this) (defaultWidth this) (h this)
     (defaultHeight this) s (ammo this) (hitbox this).

Definition drawShots (this : t) : t :=
  set_shots this (map PlayerWeaponShot.draw (shots this)).

Definition draw (this : t) : t := drawShots this.

Definition updateShots (this : t) : t :=
  set_shots this (map PlayerWeaponShot.update (shots this)).

Definition update (this : t) : t := updateShots this.

Definition adjustWeapon (this : t) (x' y' w' h' : Q) : t :=
  mk x' y' w' (defaultWidth this) h' (defaultHeight this)
     (shots this) (ammo this) (HitBox.mk x' y' w' h').

Definition fire (this : t) (direction : PlayerDirection.t) : t :=
  if (ammo this <=? 0)%Z then this
  else
    mk (x this) (y this) (w this) (defaultWidth this) (h this)
       (defaultHeight this)
       (unshift
          (PlayerWeaponShot.new (x this) (y this) direction
             (defaultWidth this))
          (shots this))
       (ammo this - 1)%Z (hitbox this).

Definition reload (this : t) : t :=
  if (ammo this >? 0)%Z then this
  else
    mk (x this) (y this) (w this) (defaultWidth this) (h this)
       (defaultHeight this) (shots this) 3%Z (hitbox this).
End PlayerWeapon.

(** The keys the player's [keyup] listener tells apart. *)
Inductive Key :=
  | ArrowUp | ArrowLeft | ArrowDown | ArrowRight | Space | KeyR | OtherKey.

(** ** class Player *)
Module Player.
Record t := mk {
  x : Q;
  y : Q;
  w : Q;
  h : Q;
  weapon : PlayerWeapon.t;
  direction : PlayerDirection.t;
  hitbox : HitBox.t
}.

Definition set_weapon (this : t) (wp : PlayerWeapon.t) : t :=
  mk (x this) (y this) (w this) (h this) wp (direction this) (hitbox this).

Definition handleDirectionChange (this : t) : t :=
  let this :=
    if PlayerDirection.eqb (direction this) Up then
      set_weapon this
        (PlayerWeapon.adjustWeapon (weapon this)
           (x this + PlayerWeapon.defaultWidth (weapon this)
            - PlayerWeapon.defaultHeight (weapon this) / 2)
           (y this - h this / 2)
           (PlayerWeapon.defaultHeight (weapon this))
           (h this / 2))
    else this in
  let this :=
    if PlayerDirection.eqb (direction this) Left then
      set_weapon this
        (PlayerWeapon.adjustWeapon (weapon this)
           (x this - w this / 2)
           (y this + PlayerWeapon.defaultWidth (weapon this)
            - PlayerWeapon.defaultHeight (weapon this) / 2)
           (w this / 2)
           (PlayerWeapon.defaultHeight (weapon this)))
    else this in
  let this :=
    if PlayerDirection.eqb (direction this) Down then
      set_weapon this
        (PlayerWeapon.adjustWeapon (weapon this)
           (x this + PlayerWeapon.defaultWidth (weapon this)
            - PlayerWeapon.defaultHeight (weapon this) / 2)
           (y this + h this)
           (PlayerWeapon.defaultHeight (weapon this))
           (h this / 2))
    else this in
  let this :=
    if PlayerDirection.eqb (direction this) Right then
      set_weapon this
        (PlayerWeapon.adjustWeapon (weapon this)
           (x this + w this)
           (y this + PlayerWeapon.defaultWidth (weapon this)
            - PlayerWeapon.defaultHeight (weapon this) / 2)
           (w this / 2)
           (PlayerWeapon.defaultHeight (weapon this)))
    else this in
  this.

(** [_w = 60], [_h = 60] and [_direction = Up] are field initialisers;
    the body centres the player and ends with [handleDirectionChange]. *)
Definition new (canvas : Canvas) : t :=
  let _w := 60 in
  let _h := 60 in
  let _x := (width canvas - _w) / 2 in
  let _y := (height canvas - _h) / 2 in
  handleDirectionChange
    (mk _x _y _w _h (PlayerWeapon.new _w) Up (HitBox.mk _x _y _w _h)).

Definition changeDirection (this : t) (dir : PlayerDirection.t) : t :=
  handleDirectionChange
    (mk (x this) (y this) (w this) (h this) (weapon this) dir
        (hitbox this)).

(** The body of the [keyup] listener, at the key [e.key]. *)
Definition handleKeyUpInput (this : t) (key : Key) : t :=
  match key with
  | ArrowUp => changeDirection this Up
  | ArrowLeft => changeDirection this Left
  | ArrowDown => changeDirection this Down
  | ArrowRight => changeDirection this Right
  | Space =>
      set_weapon this (PlayerWeapon.fire (weapon this) (direction this))
  | KeyR => set_weapon this (PlayerWeapon.reload (weapon this))
  | OtherKey => this
  end.

Definition draw (this : t) : t :=
  set_weapon this (PlayerWeapon.draw (weapon this)).

Definition update (this : t) : t :=
  set_weapon this (PlayerWeapon.update (weapon this)).
End Player.

(** ** class Enemy *)
Module Enemy.
Record t := mk {
  canvas : Canvas;
  direction : PlayerDirection.t;
  x : Q;
  y : Q;
  size : Q;
  hitbox : HitBox.t
}.

Definition directionsList : list PlayerDirection.t :=
  [Up; Left; Down; Right].

(** [directionsList[Math.floor(Math.random() * directionsList.length)]],
    at the index [k] the random draw produced; [None] stands for
    [undefined], which an index outside the list would give. *)
Definition randomDirection (k : nat) : option PlayerDirection.t :=
  nth_error directionsList k.

(** The constructor, at the direction the field initialiser
    [_direction = this.randomDirection()] drew. *)
Definition new (canvas : Canvas) (direction : PlayerDirection.t) : t :=
  let _x := 0 in
  let _y := 0 in
  let _size := 25 in
  mk canvas direction _x _y _size (HitBox.mk _x _y _size _size).

Definition set_hitbox (this : t) (hb : HitBox.t) : t :=
  mk (canvas this) (direction this) (x this) (y this) (size this) hb.

Definition set_x (this : t) (x' : Q) : t :=
  mk (canvas this) (direction this) x' (y this) (size this) (hitbox this).

Definition set_y (this : t) (y' : Q) : t :=
  mk (canvas this) (direction this) (x this) y' (size this) (hitbox this).

Definition draw (this : t) : t :=
  let this :=
    if PlayerDirection.eqb (direction this) Up then
      set_hitbox this
        (HitBox.set_xy (hitbox this)
           (x this + width (canvas this) / 2 - size this + size this / 2)
           (y this + height (canvas this) - size this))
    else this in
  let this :=
    if PlayerDirection.eqb (direction this) Left then
      set_hitbox this
        (HitBox.set_xy (hitbox this)
           (x this + width (canvas this) - size this + size this / 2)
           (y this + height (canvas this) / 2 - size this + size this / 2))
    else this in
  let this :=
    if PlayerDirection.eqb (direction this) Down then
      set_hitbox this
        (HitBox.set_xy (hitbox this)
           (x this + width (canvas this) / 2 - size this + size this / 2)
           (y this + 0 - size this))
    else this in
  let this :=
    if PlayerDirection.eqb (direction this) Right then
      set_hitbox this
        (HitBox.set_xy (hitbox this)
           (x this + 0 - size this + size this / 2)
           (y this + height (canvas this) / 2 - size this + size this / 2))
    else this in
  this.

Definition update (this : t) : t :=
  let this :=
    if PlayerDirection.eqb (direction this) Up
    then set_y this (y this - 1) else this in
  let this :=
    if PlayerDirection.eqb (direction this) Left
    then set_x this (x this - 1) else this in
  let this :=
    if PlayerDirection.eqb (direction this) Down
    then set_y this (y this + 1) else this in
  let this :=
    if PlayerDirection.eqb (direction this) Right
    then set_x this (x this + 1) else this in
  this.
End Enemy.

(** ** class SpaceGame *)
Module SpaceGame.
Record t := mk {
  canvas : Canvas;
  player : Player.t;
  enemies : list Enemy.t;
  gameOver : bool
}.

Definition new (canvas : Canvas) : t :=
  mk canvas (Player.new canvas) [] false.

Definition set_player (this : t) (p : Player.t) : t :=
  mk (canvas this) p (enemies this) (gameOver this).

Definition set_enemies (this : t) (es : list Enemy.t) : t :=
  mk (canvas this) (player this) es (gameOver this).

Definition set_gameOver (this : t) (b : bool) : t :=
  mk (canvas this) (player this) (enemies this) b.

(** [this._player.weapon.shots]. *)
Definition shots (this : t) : list PlayerWeaponShot.t :=
  PlayerWeapon.shots (Player.weapon (player this)).

Definition set_shots (this : t) (s : list PlayerWeaponShot.t) : t :=
  set_player this
    (Player.set_weapon (player this)
       (PlayerWeapon.set_shots (Player.weapon (player this)) s)).

Definition drawEnemies (this : t) : t :=
  set_enemies this (map Enemy.draw (enemies this)).

Definition updateEnemies (this : t) : t :=
  set_enemies this (map Enemy.update (enemies this)).

Definition draw (this : t) : t :=
  drawEnemies (set_player this (Player.draw (player this))).

(** The callback of [setInterval] in [enemiesSpawnLoop], run once, with
    the direction the new enemy drew. *)
Definition spawnUnshift (this : t) (d : PlayerDirection.t) : t :=
  set_enemies this (unshift (Enemy.new (canvas this) d) (enemies this)).

Definition spawn (this : t) (d : PlayerDirection.t) : t :=
  let this := spawnUnshift this d in
  if (20 <=? length (enemies this))%nat
  then set_enemies this (pop (enemies this))
  else this.

(** The inner [for] of [handleShotEnemyCollision], from index [j] on,
    for the shot held in the variable [shot] and the outer index [i].
    Both arrays are re-read at every iteration, as the loop does; [fuel]
    bounds the number of iterations and [None] is running out of it. *)
Fixpoint shotEnemyInner (fuel : nat) (shot : PlayerWeaponShot.t)
    (i j : nat) (this : t) : option t :=
  match fuel with
  | O => None
  | S fuel' =>
      match nth_error (enemies this) j with
      | None => Some this
      | Some enemy =>
          if HitBox.collision (PlayerWeaponShot.hitbox shot)
               (Enemy.hitbox enemy)
          then
            let this := set_shots this (splice1 i (shots this)) in
            let this := set_enemies this (splice1 j (enemies this)) in
            shotEnemyInner fuel' shot i (S j) this
          else shotEnemyInner fuel' shot i (S j) this
      end
  end.

(** The outer [for] of [handleShotEnemyCollision], from index [i] on. *)
Fixpoint shotEnemyOuter (fuel : nat) (i : nat) (this : t) : option t :=
  match fuel with
  | O => None
  | S fuel' =>
      match nth_error (shots this) i with
      | None => Some this
      | Some shot =>
          match
            shotEnemyInner (S (length (enemies this))) shot i 0 this
          with
          | None => None
          | Some this => shotEnemyOuter fuel' (S i) this
          end
      end
  end.

Definition handleShotEnemyCollision (this : t) : option t :=
  shotEnemyOuter (S (length (shots this))) 0 this.

(** The [for] of [handlePlayerEnemyCollision] over the enemies not yet
    visited; the loop leaves the array alone. *)
Fixpoint playerEnemyLoop (es : list Enemy.t) (this : t) : t :=
  match es with
  | [] => this
  | enemy :: es' =>
      let this :=
        if HitBox.collision (Player.hitbox (player this))
             (Enemy.hitbox enemy)
        then set_gameOver this true else this in
      playerEnemyLoop es' this
  end.

Definition handlePlayerEnemyCollision (this : t) : t :=
  playerEnemyLoop (enemies this) this.

Fixpoint playerWeaponEnemyLoop (es : list Enemy.t) (this : t) : t :=
  match es with
  | [] => this
  | enemy :: es' =>
      let this :=
        if HitBox.collision
             (PlayerWeapon.hitbox (Player.weapon (player this)))
             (Enemy.hitbox enemy)
        then set_gameOver this true else this in
      playerWeaponEnemyLoop es' this
  end.

Definition handlePlayerWeaponEnemyCollision (this : t) : t :=
  playerWeaponEnemyLoop (enemies this) this.

Definition update (this : t) : option t :=
  let this := set_player this (Player.update (player this)) in
  let this := updateEnemies this in
  match handleShotEnemyCollision this with
  | None => None
  | Some this =>
      let this := handlePlayerEnemyCollision this in
      let this := handlePlayerWeaponEnemyCollision this in
      Some this
  end.

(** One call of [animate]; scheduling the next frame is the caller's
    [Frame] event below. *)
Definition animate (this : t) : option t :=
  if gameOver this then Some this
  else update (draw this).

(** [start()] up to the first frame; the timer it installs is the
    [Spawn] event below. *)
Definition start (this : t) : option t :=
  animate (set_gameOver this false).

(** What the event loop can deliver to a started game: a frame, a tick
    of the spawn timer with the direction drawn, a key released. *)
Inductive Event :=
  | Frame
  | Spawn (d : PlayerDirection.t)
  | KeyUp (k : Key).

Definition handle (this : t) (e : Event) : option t :=
  match e with
  | Frame => animate this
  | Spawn d => Some (spawn this d)
  | KeyUp k => Some (set_player this (Player.handleKeyUpInput (player this) k))
  end.

(** A run of events, oldest first. *)
Fixpoint run (es : list Event) (this : t) : option t :=
  match es with
  | [] => Some this
  | e :: es' =>
      match handle this e with
      | None => None
      | Some this => run es' this
      end
  end.
End SpaceGame.

(** * Derived notions and sample states *)

Import SpaceGame(canvas, player, enemies, gameOver).

(** ** Runs of calls and of spawns *)

(** A call a client can make on a weapon's magazine. *)
Inductive WeaponCall :=
  | CallFire (direction : PlayerDirection.t)
  | CallReload.

Definition call (w : PlayerWeapon.t) (c : WeaponCall) : PlayerWeapon.t :=
  match c with
  | CallFire d => PlayerWeapon.fire w d
  | CallReload => PlayerWeapon.reload w
  end.

(** A sequence of calls, oldest first. *)
Definition calls (cs : list WeaponCall) (w : PlayerWeapon.t) : PlayerWeapon.t :=
  fold_left call cs w.

Definition ammo_ok (w : PlayerWeapon.t) : Prop :=
  (0 <= PlayerWeapon.ammo w <= 3)%Z.

(** A run of spawn events alone, oldest first. *)
Definition spawns (ds : list PlayerDirection.t) (g : SpaceGame.t) : SpaceGame.t :=
  fold_left SpaceGame.spawn ds g.

(** ** The two collections of a game *)

(** The game [g] with its shots and its enemies replaced. *)
Definition with_collections (g : SpaceGame.t)
    (s : list PlayerWeaponShot.t) (es : list Enemy.t) : SpaceGame.t :=
  SpaceGame.set_enemies (SpaceGame.set_shots g s) es.

(** What the shot-enemy pass may change: shots and enemies can only be
    dropped. *)
Definition shrinks (g g' : SpaceGame.t) : Prop :=
  exists s' es',
    g' = with_collections g s' es' /\
    (length s' <= length (SpaceGame.shots g))%nat /\
    (length es' <= length (enemies g))%nat /\
    incl s' (SpaceGame.shots g) /\ incl es' (enemies g).

(** The state the three passes of [update] start from. *)
Definition moved (g : SpaceGame.t) : SpaceGame.t :=
  SpaceGame.updateEnemies (SpaceGame.set_player g (Player.update (player g))).

(** ** Sample states *)

(** The box every enemy is constructed with. *)
Definition origin_box : HitBox.t := HitBox.mk 0 0 25 25.

Definition arena : Canvas := mkCanvas 800 600.

(** An enemy heading down on [arena], 280 updates after its construction
    and drawn: its box, at (775/2, 255), lies across both the weapon and
    the body of a player facing up. *)
Definition enemy_on_player : Enemy.t :=
  Enemy.draw (Nat.iter 280 Enemy.update (Enemy.new arena Down)).

Definition game_with_enemy_on_player : SpaceGame.t :=
  SpaceGame.mk arena (Player.new arena) [enemy_on_player] false.

(** The shots of a player on [arena] that fires straight after its
    construction, facing up. *)
Definition first_shot_up : list PlayerWeaponShot.t :=
  PlayerWeapon.shots
    (Player.weapon (Player.handleKeyUpInput (Player.new arena) Space)).

(** A shot and enemies as constructed, not yet drawn: every box sits at
    the origin, so the shot overlaps each enemy. *)
Definition origin_shot : PlayerWeaponShot.t := PlayerWeaponShot.new 0 0 Up 30.

Definition origin_enemy (d : PlayerDirection.t) : Enemy.t :=
  Enemy.new arena d.

Definition one_shot_two_enemies : SpaceGame.t :=
  with_collections (SpaceGame.new arena) [origin_shot]
    [origin_enemy Down; origin_enemy Left].

(** ** Notions for the further properties *)

From Stdlib Require Import Qround.

(** [l1] is [l2] with some elements dropped, the order kept. *)
Inductive subseq {A : Type} : list A -> list A -> Prop :=
  | subseq_nil : subseq [] []
  | subseq_skip (v : A) (l1 l2 : list A) : subseq l1 l2 -> subseq l1 (v :: l2)
  | subseq_keep (v : A) (l1 l2 : list A) :
      subseq l1 l2 -> subseq (v :: l1) (v :: l2).

(** [g'] is [g] with some shots and some enemies dropped, and nothing
    else changed. *)
Definition drops (g g' : SpaceGame.t) : Prop :=
  exists s' es',
    g' = with_collections g s' es' /\
    subseq s' (SpaceGame.shots g) /\ subseq es' (enemies g).

(** The shot [s] overlaps some enemy of the list. *)
Definition hits_some (s : PlayerWeaponShot.t) (es : list Enemy.t) : bool :=
  existsb
    (fun e => HitBox.collision (PlayerWeaponShot.hitbox s) (Enemy.hitbox e))
    es.

(** Some shot of the game overlaps some enemy of the game. *)
Definition some_overlap (g : SpaceGame.t) : bool :=
  existsb (fun s => hits_some s (enemies g)) (SpaceGame.shots g).

(** The rectangle [handleDirectionChange] passes to [adjustWeapon], by
    the player's direction. *)
Definition weaponBox (p : Player.t) : HitBox.t :=
  let wp := Player.weapon p in
  match Player.direction p with
  | Up =>
      HitBox.mk
        (Player.x p + PlayerWeapon.defaultWidth wp
         - PlayerWeapon.defaultHeight wp / 2)
        (Player.y p - Player.h p / 2)
        (PlayerWeapon.defaultHeight wp)
        (Player.h p / 2)
  | Left =>
      HitBox.mk
        (Player.x p - Player.w p / 2)
        (Player.y p + PlayerWeapon.defaultWidth wp
         - PlayerWeapon.defaultHeight wp / 2)
        (Player.w p / 2)
        (PlayerWeapon.defaultHeight wp)
  | Down =>
      HitBox.mk
        (Player.x p + PlayerWeapon.defaultWidth wp
         - PlayerWeapon.defaultHeight wp / 2)
        (Player.y p + Player.h p)
        (PlayerWeapon.defaultHeight wp)
        (Player.h p / 2)
  | Right =>
      HitBox.mk
        (Player.x p + Player.w p)
        (Player.y p + PlayerWeapon.defaultWidth wp
         - PlayerWeapon.defaultHeight wp / 2)
        (Player.w p / 2)
        (PlayerWeapon.defaultHeight wp)
  end.

(** A shot whose hit box has the extent shots are constructed with. *)
Definition shot_ok (s : PlayerWeaponShot.t) : Prop :=
  HitBox.w (PlayerWeaponShot.hitbox s) = PlayerWeaponShot._size /\
  HitBox.h (PlayerWeaponShot.hitbox s) = PlayerWeaponShot._size.

(** An enemy of the canvas [c] with the size and the hit box extent
    enemies are constructed with. *)
Definition enemy_ok (c : Canvas) (e : Enemy.t) : Prop :=
  Enemy.canvas e = c /\ Enemy.size e = 25 /\
  HitBox.w (Enemy.hitbox e) = 25 /\ HitBox.h (Enemy.hitbox e) = 25.

(** A player as constructed on the canvas [c], up to its direction, its
    ammo and its shots: the body where the constructor put it, the weapon
    where [handleDirectionChange] puts it for the current direction. *)
Definition player_ok (c : Canvas) (p : Player.t) : Prop :=
  Player.x p = (width c - 60) / 2 /\
  Player.y p = (height c - 60) / 2 /\
  Player.w p = 60 /\ Player.h p = 60 /\
  Player.hitbox p
    = HitBox.mk ((width c - 60) / 2) ((height c - 60) / 2) 60 60 /\
  PlayerWeapon.defaultWidth (Player.weapon p) = 60 / 2 /\
  PlayerWeapon.defaultHeight (Player.weapon p) = 15 /\
  PlayerWeapon.hitbox (Player.weapon p) = weaponBox p /\
  HitBox.mk (PlayerWeapon.x (Player.weapon p)) (PlayerWeapon.y (Player.weapon p))
    (PlayerWeapon.w (Player.weapon p)) (PlayerWeapon.h (Player.weapon p))
    = weaponBox p /\
  ammo_ok (Player.weapon p) /\
  Forall shot_ok (PlayerWeapon.shots (Player.weapon p)).

Definition game_ok (c : Canvas) (g : SpaceGame.t) : Prop :=
  SpaceGame.canvas g = c /\
  player_ok c (player g) /\
  Forall (enemy_ok c) (enemies g).

(** The event is a frame. *)
Definition is_frame (e : SpaceGame.Event) : bool :=
  match e with
  | SpaceGame.Frame => true
  | _ => false
  end.

(** The events of a run that are not frames. *)
Definition without_frames (evs : list SpaceGame.Event) : list SpaceGame.Event :=
  filter (fun e => negb (is_frame e)) evs.

(** The box of the player tested against enemies: body or weapon. *)
Definition touches_player (g : SpaceGame.t) (e : Enemy.t) : bool :=
  HitBox.collision (Player.hitbox (player g)) (Enemy.hitbox e) ||
  HitBox.collision (PlayerWeapon.hitbox (Player.weapon (player g)))
    (Enemy.hitbox e).

(** Number of [fire] calls and of [reload] calls in a sequence. *)
Definition count_fire (cs : list WeaponCall) : nat :=
  length (filter (fun c => match c with CallFire _ => true | _ => false end) cs).

Definition count_reload (cs : list WeaponCall) : nat :=
  length (filter (fun c => match c with CallReload => true | _ => false end) cs).


(** An enemy constructed on [c] with direction [d], updated [n] times and
    drawn. *)
Definition enemy_after (c : Canvas) (d : PlayerDirection.t) (n : nat) : Enemy.t :=
  Enemy.draw (Nat.iter n Enemy.update (Enemy.new c d)).




(** What one frame does to a shot: its box is drawn, then it moves. *)
Definition shot_frame (s : PlayerWeaponShot.t) : PlayerWeaponShot.t :=
  PlayerWeaponShot.update (PlayerWeaponShot.draw s).

(** A shot after [k] frames, drawn. *)
Definition shot_after (s : PlayerWeaponShot.t) (k : nat) : PlayerWeaponShot.t :=
  PlayerWeaponShot.draw (Nat.iter k shot_frame s).

(** The direction an enemy flies in to come at a player facing [d]. *)
Definition opposite (d : PlayerDirection.t) : PlayerDirection.t :=
  match d with
  | Up => Down
  | Left => Right
  | Down => Up
  | Right => Left
  end.

(** The shots of the player constructed on [c] that turns to [d] and
    fires. *)
Definition fired (c : Canvas) (d : PlayerDirection.t) : list PlayerWeaponShot.t :=
  PlayerWeapon.shots
    (Player.weapon
       (Player.handleKeyUpInput
          (Player.handleKeyUpInput (Player.new c)
             match d with
             | Up => ArrowUp
             | Left => ArrowLeft
             | Down => ArrowDown
             | Right => ArrowRight
             end)
          Space)).

(** How far the box of the enemy coming at a player facing [d], updated
    [m] times, is from the box of a shot as first drawn, along the line
    of fire; negative when the boxes overlap along it or the enemy is
    past the shot. *)
Definition head_on_gap (d : PlayerDirection.t) (shot enemy : HitBox.t) : Q :=
  match d with
  | Up => HitBox.y shot - (HitBox.y enemy + HitBox.h enemy)
  | Left => HitBox.x shot - (HitBox.x enemy + HitBox.w enemy)
  | Down => HitBox.y enemy - (HitBox.y shot + HitBox.h shot)
  | Right => HitBox.x enemy - (HitBox.x shot + HitBox.w shot)
  end.

(** The number of frames after which a gap closing by 4 a frame has just
    closed. *)
Definition frames_to_close (gap : Q) : nat := S (Z.to_nat (Qfloor (gap / 4))).

(** * Properties *)

(** ** Comparisons of numbers *)

Lemma Qltb_lt (a b : Q) : Qltb a b = true <-> a < b.
Proof.
  unfold Qltb. rewrite negb_true_iff, <- not_true_iff_false, Qle_bool_iff.
  split; [apply Qnot_le_lt | apply Qlt_not_le].
Qed.

Lemma Qltb_ge (a b : Q) : Qltb a b = false <-> b <= a.
Proof.
  unfold Qltb. rewrite negb_false_iff. apply Qle_bool_iff.
Qed.

(** ** Hit boxes *)

(** Overlap of two boxes, spelled out on their extents. *)
Lemma collision_spec (A B : HitBox.t) :
  HitBox.collision A B = true <->
  HitBox.x A < HitBox.x B + HitBox.w B /\
  HitBox.x B < HitBox.x A + HitBox.w A /\
  HitBox.y A < HitBox.y B + HitBox.h B /\
  HitBox.y B < HitBox.y A + HitBox.h A.
Proof.
  unfold HitBox.collision, Qgtb.
  rewrite !andb_true_iff, !Qltb_lt. tauto.
Qed.

Lemma collision_sym (A B : HitBox.t) :
  HitBox.collision A B = HitBox.collision B A.
Proof.
  unfold HitBox.collision, Qgtb.
  destruct (Qltb (HitBox.x A) (HitBox.x B + HitBox.w B)),
           (Qltb (HitBox.x B) (HitBox.x A + HitBox.w A)),
           (Qltb (HitBox.y A) (HitBox.y B + HitBox.h B)),
           (Qltb (HitBox.y B) (HitBox.y A + HitBox.h A)); reflexivity.
Qed.

(** A box whose right edge is the other's left edge misses it. *)
Lemma collision_edge_x (A B : HitBox.t) :
  HitBox.x A + HitBox.w A == HitBox.x B -> HitBox.collision A B = false.
Proof.
  intros E. apply not_true_iff_false. rewrite collision_spec.
  intros (_ & H & _). rewrite E in H. exact (Qlt_irrefl _ H).
Qed.

(** A box whose bottom edge is the other's top edge misses it. *)
Lemma collision_edge_y (A B : HitBox.t) :
  HitBox.y A + HitBox.h A == HitBox.y B -> HitBox.collision A B = false.
Proof.
  intros E. apply not_true_iff_false. rewrite collision_spec.
  intros (_ & _ & _ & H). rewrite E in H. exact (Qlt_irrefl _ H).
Qed.

(** C4. [collision] is commutative, and two boxes that share only an edge
    do not collide, whichever box is asked: when the right edge of [A] is
    the left edge of [B] ([A.x + A.w = B.x]), or the bottom edge of [A] is
    the top edge of [B], both [collision A B] and [collision B A] are
    false, whatever the boxes' extents on the other axis. *)
Theorem collision_comm_strict (A B : HitBox.t) :
  HitBox.collision A B = HitBox.collision B A /\
  (HitBox.x A + HitBox.w A == HitBox.x B \/
   HitBox.y A + HitBox.h A == HitBox.y B ->
   HitBox.collision A B = false /\ HitBox.collision B A = false).
Proof.
  split; [apply collision_sym |].
  intros [E | E]; rewrite <- (collision_sym A B);
    (split; [| idtac]); auto using collision_edge_x, collision_edge_y.
Qed.

(** Two 10 by 10 boxes side by side, the second starting where the first
    ends, fully aligned on the other axis. *)
Lemma collision_comm_strict_witness :
  let A := HitBox.mk 0 0 10 10 in
  let B := HitBox.mk 10 0 10 10 in
  HitBox.x A + HitBox.w A == HitBox.x B /\
  HitBox.collision A B = HitBox.collision B A /\
  HitBox.collision A B = false /\ HitBox.collision B A = false.
Proof.
  intros A B.
  assert (E : HitBox.x A + HitBox.w A == HitBox.x B) by reflexivity.
  split; [exact E |].
  destruct (collision_comm_strict A B) as [Hc He].
  split; [exact Hc | exact (He (or_introl E))].
Defined.

(** ** The two game-over passes *)

(** Neither pass touches anything but the flag. *)
Lemma playerEnemyLoop_frame es g :
  SpaceGame.canvas (SpaceGame.playerEnemyLoop es g) = SpaceGame.canvas g /\
  player (SpaceGame.playerEnemyLoop es g) = player g /\
  enemies (SpaceGame.playerEnemyLoop es g) = enemies g.
Proof.
  revert g. induction es as [| e es IH]; intros g; simpl; [tauto |].
  destruct (HitBox.collision _ _); simpl;
    destruct (IH (SpaceGame.set_gameOver g true)) as (? & ? & ?);
    destruct (IH g) as (? & ? & ?); tauto.
Qed.

Lemma playerWeaponEnemyLoop_frame es g :
  SpaceGame.canvas (SpaceGame.playerWeaponEnemyLoop es g) = SpaceGame.canvas g /\
  player (SpaceGame.playerWeaponEnemyLoop es g) = player g /\
  enemies (SpaceGame.playerWeaponEnemyLoop es g) = enemies g.
Proof.
  revert g. induction es as [| e es IH]; intros g; simpl; [tauto |].
  destruct (HitBox.collision _ _); simpl;
    destruct (IH (SpaceGame.set_gameOver g true)) as (? & ? & ?);
    destruct (IH g) as (? & ? & ?); tauto.
Qed.

(** The flag after the pass: what it was, or true when some visited enemy
    overlaps the box [hb] the pass tests against. *)
Lemma playerEnemyLoop_gameOver es g :
  gameOver (SpaceGame.playerEnemyLoop es g) =
  gameOver g ||
  existsb (fun e => HitBox.collision (Player.hitbox (player g)) (Enemy.hitbox e)) es.
Proof.
  revert g. induction es as [| e es IH]; intros g; simpl.
  - now rewrite orb_false_r.
  - rewrite IH. destruct (HitBox.collision _ _); simpl.
    + now rewrite orb_true_r.
    + reflexivity.
Qed.

Lemma playerWeaponEnemyLoop_gameOver es g :
  gameOver (SpaceGame.playerWeaponEnemyLoop es g) =
  gameOver g ||
  existsb (fun e => HitBox.collision
                      (PlayerWeapon.hitbox (Player.weapon (player g)))
                      (Enemy.hitbox e)) es.
Proof.
  revert g. induction es as [| e es IH]; intros g; simpl.
  - now rewrite orb_false_r.
  - rewrite IH. destruct (HitBox.collision _ _); simpl.
    + now rewrite orb_true_r.
    + reflexivity.
Qed.

(** C1. In every game state, an enemy of the collection whose hit box
    overlaps the player's body hit box makes [handlePlayerEnemyCollision]
    leave [gameOver] true, and one whose hit box overlaps the weapon's hit
    box makes [handlePlayerWeaponEnemyCollision] leave [gameOver] true. *)
Theorem gameOver_on_overlap (g : SpaceGame.t) (e : Enemy.t) :
  In e (enemies g) ->
  (HitBox.collision (Enemy.hitbox e) (Player.hitbox (player g)) = true ->
   gameOver (SpaceGame.handlePlayerEnemyCollision g) = true) /\
  (HitBox.collision (Enemy.hitbox e)
     (PlayerWeapon.hitbox (Player.weapon (player g))) = true ->
   gameOver (SpaceGame.handlePlayerWeaponEnemyCollision g) = true).
Proof.
  intros Hin. split; intros Hc; rewrite collision_sym in Hc.
  - unfold SpaceGame.handlePlayerEnemyCollision.
    rewrite playerEnemyLoop_gameOver. apply orb_true_iff. right.
    apply existsb_exists. exists e. split; assumption.
  - unfold SpaceGame.handlePlayerWeaponEnemyCollision.
    rewrite playerWeaponEnemyLoop_gameOver. apply orb_true_iff. right.
    apply existsb_exists. exists e. split; assumption.
Qed.

Lemma gameOver_on_overlap_witness :
  gameOver (SpaceGame.handlePlayerEnemyCollision game_with_enemy_on_player)
    = true /\
  gameOver
    (SpaceGame.handlePlayerWeaponEnemyCollision game_with_enemy_on_player)
    = true.
Proof.
  destruct (gameOver_on_overlap game_with_enemy_on_player enemy_on_player)
    as [Hbody Hweapon].
  - simpl. left. reflexivity.
  - split; [apply Hbody | apply Hweapon]; vm_compute; reflexivity.
Defined.

(** ** The weapon's ammunition *)

Lemma fire_ammo_ok w d : ammo_ok w -> ammo_ok (PlayerWeapon.fire w d).
Proof.
  unfold ammo_ok, PlayerWeapon.fire. intros H.
  destruct (Z.leb_spec (PlayerWeapon.ammo w) 0); simpl; lia.
Qed.

Lemma reload_ammo_ok w : ammo_ok w -> ammo_ok (PlayerWeapon.reload w).
Proof.
  unfold ammo_ok, PlayerWeapon.reload. intros H.
  destruct (PlayerWeapon.ammo w >? 0)%Z; simpl; lia.
Qed.

Lemma calls_ammo_ok cs : forall w, ammo_ok w -> ammo_ok (calls cs w).
Proof.
  induction cs as [| c cs IH]; intros w H; simpl; [exact H |].
  apply IH. destruct c; simpl; auto using fire_ammo_ok, reload_ammo_ok.
Qed.

Lemma fire_empty w d :
  (PlayerWeapon.ammo w <= 0)%Z -> PlayerWeapon.fire w d = w.
Proof.
  intros H. unfold PlayerWeapon.fire.
  destruct (Z.leb_spec (PlayerWeapon.ammo w) 0); [reflexivity | lia].
Qed.

Lemma fire_loaded w d :
  (0 < PlayerWeapon.ammo w)%Z ->
  PlayerWeapon.fire w d =
  PlayerWeapon.mk (PlayerWeapon.x w) (PlayerWeapon.y w) (PlayerWeapon.w w)
    (PlayerWeapon.defaultWidth w) (PlayerWeapon.h w)
    (PlayerWeapon.defaultHeight w)
    (PlayerWeaponShot.new (PlayerWeapon.x w) (PlayerWeapon.y w) d
       (PlayerWeapon.defaultWidth w) :: PlayerWeapon.shots w)
    (PlayerWeapon.ammo w - 1)%Z (PlayerWeapon.hitbox w).
Proof.
  intros H. unfold PlayerWeapon.fire.
  destruct (Z.leb_spec (PlayerWeapon.ammo w) 0); [lia | reflexivity].
Qed.

Lemma reload_loaded w :
  (0 < PlayerWeapon.ammo w)%Z -> PlayerWeapon.reload w = w.
Proof.
  intros H. unfold PlayerWeapon.reload.
  destruct (Z.gtb_spec (PlayerWeapon.ammo w) 0); [reflexivity | lia].
Qed.

Lemma reload_empty w :
  (PlayerWeapon.ammo w <= 0)%Z ->
  PlayerWeapon.reload w =
  PlayerWeapon.mk (PlayerWeapon.x w) (PlayerWeapon.y w) (PlayerWeapon.w w)
    (PlayerWeapon.defaultWidth w) (PlayerWeapon.h w)
    (PlayerWeapon.defaultHeight w) (PlayerWeapon.shots w) 3%Z
    (PlayerWeapon.hitbox w).
Proof.
  intros H. unfold PlayerWeapon.reload.
  destruct (Z.gtb_spec (PlayerWeapon.ammo w) 0); [lia | reflexivity].
Qed.

(** C2. After any sequence of [fire] and [reload] calls on a fresh weapon
    the ammo is between 0 and 3.  In the weapon [w] so reached: with no
    ammo, [fire] changes nothing at all (ammo and shots included); with
    ammo, [fire] puts exactly one new shot in front of the shots and takes
    one off the ammo; with ammo, [reload] changes nothing; with no ammo,
    [reload] sets the ammo to 3 and keeps the shots. *)
Theorem ammo_invariant (playerWidth : Q) (cs : list WeaponCall)
    (d : PlayerDirection.t) :
  let w := calls cs (PlayerWeapon.new playerWidth) in
  (0 <= PlayerWeapon.ammo w <= 3)%Z /\
  (PlayerWeapon.ammo w = 0%Z -> PlayerWeapon.fire w d = w) /\
  ((PlayerWeapon.ammo w > 0)%Z ->
   PlayerWeapon.shots (PlayerWeapon.fire w d) =
     PlayerWeaponShot.new (PlayerWeapon.x w) (PlayerWeapon.y w) d
       (PlayerWeapon.defaultWidth w) :: PlayerWeapon.shots w /\
   PlayerWeapon.ammo (PlayerWeapon.fire w d) = (PlayerWeapon.ammo w - 1)%Z) /\
  ((PlayerWeapon.ammo w > 0)%Z -> PlayerWeapon.reload w = w) /\
  (PlayerWeapon.ammo w = 0%Z ->
   PlayerWeapon.ammo (PlayerWeapon.reload w) = 3%Z /\
   PlayerWeapon.shots (PlayerWeapon.reload w) = PlayerWeapon.shots w).
Proof.
  intros w.
  assert (Hw : ammo_ok w).
  { apply calls_ammo_ok. unfold ammo_ok. simpl. lia. }
  split; [exact Hw |].
  split; [intros H; apply fire_empty; lia |].
  split; [intros H; rewrite fire_loaded by lia; simpl; split; reflexivity |].
  split; [intros H; apply reload_loaded; lia |].
  intros H. rewrite reload_empty by lia. simpl. split; reflexivity.
Qed.

(** The fresh weapon of a 60 wide player (ammo 3) and the same weapon
    after three shots (ammo 0) meet the two sides of every case. *)
Lemma ammo_invariant_witness :
  let full := calls [] (PlayerWeapon.new 60) in
  let empty := calls [CallFire Up; CallFire Left; CallFire Up]
                 (PlayerWeapon.new 60) in
  (PlayerWeapon.ammo full = 3 /\ PlayerWeapon.ammo empty = 0)%Z /\
  PlayerWeapon.fire empty Down = empty /\
  PlayerWeapon.ammo (PlayerWeapon.fire full Down) = 2%Z /\
  length (PlayerWeapon.shots (PlayerWeapon.fire full Down)) = 1%nat /\
  PlayerWeapon.reload full = full /\
  PlayerWeapon.ammo (PlayerWeapon.reload empty) = 3%Z /\
  length (PlayerWeapon.shots (PlayerWeapon.reload empty)) = 3%nat.
Proof.
  intros full empty.
  destruct (ammo_invariant 60 [] Down) as (_ & _ & Hf & Hr & _).
  destruct (ammo_invariant 60 [CallFire Up; CallFire Left; CallFire Up] Down)
    as (_ & He & _ & _ & Hre).
  fold full in Hf, Hr. fold empty in He, Hre.
  assert (F : (PlayerWeapon.ammo full > 0)%Z) by reflexivity.
  assert (E : PlayerWeapon.ammo empty = 0%Z) by reflexivity.
  destruct (Hf F) as [Hs Ha]. destruct (Hre E) as [Hra Hrs].
  split; [split; reflexivity |].
  split; [exact (He E) |].
  split; [rewrite Ha; reflexivity |].
  split; [rewrite Hs; reflexivity |].
  split; [exact (Hr F) |].
  split; [exact Hra | rewrite Hrs; reflexivity].
Defined.

(** ** Movement of shots *)

(** [update] moves a shot and nothing else. *)
Lemma shot_update_frame (s : PlayerWeaponShot.t) :
  PlayerWeaponShot.direction (PlayerWeaponShot.update s)
    = PlayerWeaponShot.direction s /\
  PlayerWeaponShot.defaultWeaponWidth (PlayerWeaponShot.update s)
    = PlayerWeaponShot.defaultWeaponWidth s /\
  PlayerWeaponShot.hitbox (PlayerWeaponShot.update s)
    = PlayerWeaponShot.hitbox s.
Proof.
  destruct s as [x y d dw hb]. destruct d; cbn; repeat split.
Qed.

(** C6. One [update] moves a shot by exactly 3 along the axis of its
    direction and keeps the other coordinate: up, [y] goes down by 3;
    down, [y] goes up by 3; left, [x] goes down by 3; right, [x] goes up
    by 3.  On an 800 by 600 field the player's body is at (370, 270); the
    player fires, facing up, one shot from the muzzle at height 240, and
    after one [update] that shot is at height 237, with [x] as it was. *)
Theorem shot_update_moves_3 (s : PlayerWeaponShot.t) :
  let s' := PlayerWeaponShot.update s in
  match PlayerWeaponShot.direction s with
  | Up =>
      PlayerWeaponShot.y s - PlayerWeaponShot.y s' == 3 /\
      PlayerWeaponShot.x s' = PlayerWeaponShot.x s
  | Down =>
      PlayerWeaponShot.y s' - PlayerWeaponShot.y s == 3 /\
      PlayerWeaponShot.x s' = PlayerWeaponShot.x s
  | Left =>
      PlayerWeaponShot.x s - PlayerWeaponShot.x s' == 3 /\
      PlayerWeaponShot.y s' = PlayerWeaponShot.y s
  | Right =>
      PlayerWeaponShot.x s' - PlayerWeaponShot.x s == 3 /\
      PlayerWeaponShot.y s' = PlayerWeaponShot.y s
  end /\
  Player.x (Player.new (mkCanvas 800 600)) == 370 /\
  Player.y (Player.new (mkCanvas 800 600)) == 270 /\
  exists shot,
    first_shot_up = [shot] /\
    PlayerWeaponShot.direction shot = Up /\
    PlayerWeaponShot.y shot == 240 /\
    PlayerWeaponShot.y (PlayerWeaponShot.update shot) == 240 - 3 /\
    PlayerWeaponShot.x (PlayerWeaponShot.update shot)
      = PlayerWeaponShot.x shot.
Proof.
  intros s'. split.
  - subst s'. destruct s as [x y d dw hb].
    destruct d; cbn; unfold PlayerWeaponShot._speed;
      (split; [ring | reflexivity]).
  - split; [reflexivity |]. split; [reflexivity |].
    eexists. split; [reflexivity |]. cbn.
    repeat split; reflexivity.
Qed.

(** ** Movement of enemies *)

(** The draw of a direction succeeds at each of the four indices
    [Math.floor(Math.random() * 4)] can take. *)
Lemma randomDirection_defined (k : nat) :
  (k < 4)%nat -> exists d, Enemy.randomDirection k = Some d.
Proof.
  intros H. do 4 (destruct k as [| k]; [eexists; reflexivity |]). lia.
Qed.

(** [update] moves an enemy and nothing else: canvas, direction, size and
    hit box stay. *)
Lemma enemy_update_frame (e : Enemy.t) :
  Enemy.canvas (Enemy.update e) = Enemy.canvas e /\
  Enemy.direction (Enemy.update e) = Enemy.direction e /\
  Enemy.size (Enemy.update e) = Enemy.size e /\
  Enemy.hitbox (Enemy.update e) = Enemy.hitbox e.
Proof.
  destruct e as [c d x y sz hb]. destruct d; cbn; repeat split.
Qed.

Lemma enemy_updates_frame (n : nat) (e : Enemy.t) :
  Enemy.canvas (Nat.iter n Enemy.update e) = Enemy.canvas e /\
  Enemy.direction (Nat.iter n Enemy.update e) = Enemy.direction e /\
  Enemy.size (Nat.iter n Enemy.update e) = Enemy.size e /\
  Enemy.hitbox (Nat.iter n Enemy.update e) = Enemy.hitbox e.
Proof.
  induction n as [| n (Hc & Hd & Hs & Hh)]; [repeat split |].
  rewrite Nat.iter_succ.
  destruct (enemy_update_frame (Nat.iter n Enemy.update e))
    as (Hc' & Hd' & Hs' & Hh').
  repeat split; congruence.
Qed.

(** One step of an enemy, by direction: the coordinate pair after it. *)
Lemma enemy_update_step (e : Enemy.t) :
  match Enemy.direction e with
  | Up =>
      Enemy.y (Enemy.update e) = Enemy.y e - 1 /\
      Enemy.x (Enemy.update e) = Enemy.x e
  | Down =>
      Enemy.y (Enemy.update e) = Enemy.y e + 1 /\
      Enemy.x (Enemy.update e) = Enemy.x e
  | Left =>
      Enemy.x (Enemy.update e) = Enemy.x e - 1 /\
      Enemy.y (Enemy.update e) = Enemy.y e
  | Right =>
      Enemy.x (Enemy.update e) = Enemy.x e + 1 /\
      Enemy.y (Enemy.update e) = Enemy.y e
  end.
Proof.
  destruct e as [c d x y sz hb]. destruct d; cbn; split; reflexivity.
Qed.

(** [n] steps of an enemy heading down. *)
Lemma enemy_down_updates (n : nat) (e : Enemy.t) :
  Enemy.direction e = Down ->
  Enemy.y (Nat.iter n Enemy.update e) == Enemy.y e + inject_Z (Z.of_nat n) /\
  Enemy.x (Nat.iter n Enemy.update e) = Enemy.x e.
Proof.
  intros D. induction n as [| n [IHy IHx]].
  - cbn. split; [ring | reflexivity].
  - rewrite Nat.iter_succ.
    pose proof (enemy_update_step (Nat.iter n Enemy.update e)) as St.
    destruct (enemy_updates_frame n e) as (_ & Hd & _).
    rewrite Hd, D in St. destruct St as [Sy Sx].
    rewrite Sy, Sx, IHy, IHx. split; [| reflexivity].
    rewrite Nat2Z.inj_succ, <- Z.add_1_r, inject_Z_plus. cbn. ring.
Qed.

(** C7. One [update] moves an enemy by exactly 1 along the axis of its
    direction (up and down change [y], left and right change [x]) and
    keeps the other coordinate; an enemy heading down has, after 10
    updates, its [y] greater by exactly 10 and its [x] as it was. *)
Theorem enemy_update_moves_1 (e : Enemy.t) :
  let e' := Enemy.update e in
  match Enemy.direction e with
  | Up => Enemy.y e - Enemy.y e' == 1 /\ Enemy.x e' = Enemy.x e
  | Down => Enemy.y e' - Enemy.y e == 1 /\ Enemy.x e' = Enemy.x e
  | Left => Enemy.x e - Enemy.x e' == 1 /\ Enemy.y e' = Enemy.y e
  | Right => Enemy.x e' - Enemy.x e == 1 /\ Enemy.y e' = Enemy.y e
  end /\
  (Enemy.direction e = Down ->
   Enemy.y (Nat.iter 10 Enemy.update e) - Enemy.y e == 10 /\
   Enemy.x (Nat.iter 10 Enemy.update e) = Enemy.x e).
Proof.
  intros e'. split.
  - subst e'. pose proof (enemy_update_step e) as St.
    destruct (Enemy.direction e); destruct St as [-> ->];
      (split; [ring | reflexivity]).
  - intros D. destruct (enemy_down_updates 10 e D) as [Hy Hx].
    split; [| exact Hx]. rewrite Hy. cbn. ring.
Qed.

(** A fresh enemy heading down on the 800 by 600 field: drawn, its box
    starts above the field, at height -25; ten updates later it is at
    [y = 10], its box is drawn at height -15, and [x] is still 0. *)
Lemma enemy_update_moves_1_witness :
  let e := Enemy.new (mkCanvas 800 600) Down in
  let e10 := Nat.iter 10 Enemy.update e in
  Enemy.direction e = Down /\
  HitBox.y (Enemy.hitbox (Enemy.draw e)) == -25 /\
  Enemy.y e10 - Enemy.y e == 10 /\
  Enemy.x e10 = Enemy.x e /\
  HitBox.y (Enemy.hitbox (Enemy.draw e10)) == -15.
Proof.
  intros e e10.
  destruct (enemy_update_moves_1 e) as [_ H10].
  destruct (H10 eq_refl) as [Hy Hx].
  split; [reflexivity |]. split; [reflexivity |].
  split; [exact Hy |]. split; [exact Hx | reflexivity].
Defined.

(** ** Hit boxes of enemies *)

(** [draw] places the hit box and keeps its extent; position, direction
    and size of the enemy stay. *)
Lemma enemy_draw_frame (e : Enemy.t) :
  HitBox.w (Enemy.hitbox (Enemy.draw e)) = HitBox.w (Enemy.hitbox e) /\
  HitBox.h (Enemy.hitbox (Enemy.draw e)) = HitBox.h (Enemy.hitbox e) /\
  Enemy.x (Enemy.draw e) = Enemy.x e /\
  Enemy.y (Enemy.draw e) = Enemy.y e /\
  Enemy.direction (Enemy.draw e) = Enemy.direction e /\
  Enemy.size (Enemy.draw e) = Enemy.size e.
Proof.
  destruct e as [c d x y sz hb]. destruct d; cbn; repeat split.
Qed.

(** [updateEnemies] keeps every enemy's hit box. *)
Lemma updateEnemies_hitboxes (g : SpaceGame.t) :
  map Enemy.hitbox (enemies (SpaceGame.updateEnemies g))
  = map Enemy.hitbox (enemies g).
Proof.
  cbn. rewrite map_map. apply map_ext.
  intros e. apply enemy_update_frame.
Qed.

(** C10. [update] changes an enemy's position only: canvas, direction,
    size and the hit box (x, y, w, h) stay, for one enemy and for all the
    enemies of a game under [updateEnemies]; [draw] is what places the hit
    box, and it keeps the box's extent.  A constructed enemy has its hit
    box at (0, 0) with width and height 25 whatever its direction, and so
    after any number of updates as long as it is not drawn: a collision
    test against it is a test against the box at the origin, not against
    the box at the field's edge that the first [draw] would place. *)
Theorem enemy_hitbox_only_drawn (e : Enemy.t) (g : SpaceGame.t)
    (c : Canvas) (d : PlayerDirection.t) (n : nat) (other : HitBox.t) :
  (Enemy.hitbox (Enemy.update e) = Enemy.hitbox e /\
   Enemy.canvas (Enemy.update e) = Enemy.canvas e /\
   Enemy.direction (Enemy.update e) = Enemy.direction e /\
   Enemy.size (Enemy.update e) = Enemy.size e) /\
  map Enemy.hitbox (enemies (SpaceGame.updateEnemies g))
    = map Enemy.hitbox (enemies g) /\
  (HitBox.w (Enemy.hitbox (Enemy.draw e)) = HitBox.w (Enemy.hitbox e) /\
   HitBox.h (Enemy.hitbox (Enemy.draw e)) = HitBox.h (Enemy.hitbox e)) /\
  Enemy.hitbox (Enemy.new c d) = HitBox.mk 0 0 25 25 /\
  Enemy.hitbox (Nat.iter n Enemy.update (Enemy.new c d)) = origin_box /\
  HitBox.collision other
    (Enemy.hitbox (Nat.iter n Enemy.update (Enemy.new c d)))
  = HitBox.collision other origin_box /\
  HitBox.collision
    (Enemy.hitbox (Nat.iter n Enemy.update (Enemy.new c d))) other
  = HitBox.collision origin_box other /\
  (let drawn := Enemy.hitbox (Enemy.draw (Enemy.new c d)) in
   match d with
   | Up =>
       HitBox.x drawn == width c / 2 - 25 / 2 /\
       HitBox.y drawn == height c - 25
   | Left =>
       HitBox.x drawn == width c - 25 / 2 /\
       HitBox.y drawn == height c / 2 - 25 / 2
   | Down =>
       HitBox.x drawn == width c / 2 - 25 / 2 /\ HitBox.y drawn == - 25
   | Right =>
       HitBox.x drawn == - (25 / 2) /\
       HitBox.y drawn == height c / 2 - 25 / 2
   end).
Proof.
  destruct (enemy_update_frame e) as (Hc & Hd & Hs & Hh).
  destruct (enemy_draw_frame e) as (Hw & Hh' & _).
  destruct (enemy_updates_frame n (Enemy.new c d)) as (_ & _ & _ & Hn).
  split; [repeat split; assumption |].
  split; [apply updateEnemies_hitboxes |].
  split; [split; assumption |].
  split; [reflexivity |].
  rewrite Hn. repeat split.
  destruct d; cbn; split; field.
Qed.

(** ** The shot-enemy pass terminates *)

Lemma splice1_length_le {A : Type} (i : nat) (a : list A) :
  (length (splice1 i a) <= length a)%nat.
Proof.
  unfold splice1. rewrite length_app, length_firstn, length_skipn. lia.
Qed.

Lemma splice1_incl {A : Type} (i : nat) (a : list A) :
  incl (splice1 i a) a.
Proof.
  unfold splice1. intros v Hv. apply in_app_or in Hv.
  destruct Hv as [Hv | Hv].
  - rewrite <- (firstn_skipn i a). apply in_or_app. left. exact Hv.
  - rewrite <- (firstn_skipn (S i) a). apply in_or_app. right. exact Hv.
Qed.

Lemma with_collections_id (g : SpaceGame.t) :
  with_collections g (SpaceGame.shots g) (enemies g) = g.
Proof.
  destruct g as [c [x y w h [wx wy ww wd wh wdh ws wa whb] d hb] es go].
  reflexivity.
Qed.

Lemma with_collections_shots g s es :
  SpaceGame.shots (with_collections g s es) = s.
Proof. reflexivity. Qed.

Lemma with_collections_enemies g s es :
  enemies (with_collections g s es) = es.
Proof. reflexivity. Qed.

Lemma with_collections_twice g s es s' es' :
  with_collections (with_collections g s es) s' es' = with_collections g s' es'.
Proof. reflexivity. Qed.

Lemma shrinks_refl g : shrinks g g.
Proof.
  exists (SpaceGame.shots g), (enemies g).
  rewrite with_collections_id. auto using incl_refl.
Qed.

Lemma shrinks_trans g1 g2 g3 : shrinks g1 g2 -> shrinks g2 g3 -> shrinks g1 g3.
Proof.
  intros (s2 & e2 & -> & Hs2 & He2 & Is2 & Ie2)
         (s3 & e3 & -> & Hs3 & He3 & Is3 & Ie3).
  rewrite with_collections_shots in Hs3, Is3.
  rewrite with_collections_enemies in He3, Ie3.
  exists s3, e3. rewrite with_collections_twice.
  split; [reflexivity |].
  split; [lia |]. split; [lia |].
  split; eapply incl_tran; eassumption.
Qed.

Lemma shrinks_splice (g : SpaceGame.t) (i j : nat) :
  shrinks g
    (SpaceGame.set_enemies
       (SpaceGame.set_shots g (splice1 i (SpaceGame.shots g)))
       (splice1 j (enemies g))).
Proof.
  exists (splice1 i (SpaceGame.shots g)), (splice1 j (enemies g)).
  split; [reflexivity |].
  auto using splice1_length_le, splice1_incl.
Qed.

Lemma shrinks_enemies_length g g' :
  shrinks g g' -> (length (enemies g') <= length (enemies g))%nat.
Proof. intros (s & es & -> & _ & H & _). exact H. Qed.

Lemma shrinks_shots_length g g' :
  shrinks g g' ->
  (length (SpaceGame.shots g') <= length (SpaceGame.shots g))%nat.
Proof. intros (s & es & -> & H & _). exact H. Qed.

(** With fuel past the number of enemies still ahead of [j], the inner
    loop reaches its exit. *)
Lemma shotEnemyInner_total shot i :
  forall fuel j g,
    (length (enemies g) - j < fuel)%nat ->
    exists g', SpaceGame.shotEnemyInner fuel shot i j g = Some g' /\
               shrinks g g'.
Proof.
  induction fuel as [| fuel IH]; intros j g Hf; [lia |].
  cbn [SpaceGame.shotEnemyInner].
  destruct (nth_error (enemies g) j) as [enemy |] eqn:E.
  - assert (Hj : (j < length (enemies g))%nat)
      by (apply nth_error_Some; congruence).
    destruct (HitBox.collision _ _).
    + pose proof (shrinks_splice g i j) as Sh.
      pose proof (shrinks_enemies_length Sh) as Le.
      cbv zeta.
      set (g1 := SpaceGame.set_enemies _ _) in *.
      assert (Hf1 : (length (enemies g1) - S j < fuel)%nat) by lia.
      destruct (IH (S j) g1 Hf1) as (g' & Hg' & Sh').
      exists g'. split; [exact Hg' | eapply shrinks_trans; eassumption].
    + apply IH. lia.
  - exists g. split; [reflexivity | apply shrinks_refl].
Qed.

Lemma shotEnemyOuter_total :
  forall fuel i g,
    (length (SpaceGame.shots g) - i < fuel)%nat ->
    exists g', SpaceGame.shotEnemyOuter fuel i g = Some g' /\ shrinks g g'.
Proof.
  induction fuel as [| fuel IH]; intros i g Hf; [lia |].
  cbn [SpaceGame.shotEnemyOuter].
  destruct (nth_error (SpaceGame.shots g) i) as [shot |] eqn:E.
  - assert (Hi : (i < length (SpaceGame.shots g))%nat)
      by (apply nth_error_Some; congruence).
    destruct (@shotEnemyInner_total shot i (S (length (enemies g))) 0%nat g)
      as (g1 & -> & Sh1); [lia |].
    destruct (IH (S i) g1) as (g2 & Hg2 & Sh2).
    + pose proof (shrinks_shots_length Sh1). lia.
    + exists g2. split; [exact Hg2 | eapply shrinks_trans; eassumption].
  - exists g. split; [reflexivity | apply shrinks_refl].
Qed.

(** [handleShotEnemyCollision] always returns, and only drops shots and
    enemies. *)
Lemma handleShotEnemyCollision_total (g : SpaceGame.t) :
  exists g', SpaceGame.handleShotEnemyCollision g = Some g' /\ shrinks g g'.
Proof. apply shotEnemyOuter_total. lia. Qed.

(** ** The shot-enemy pass on small collections *)

(** Unfolding steps of the two loops, as equations. *)
Lemma shotEnemyOuter_exit fuel i g :
  nth_error (SpaceGame.shots g) i = None ->
  SpaceGame.shotEnemyOuter (S fuel) i g = Some g.
Proof. intros E. cbn [SpaceGame.shotEnemyOuter]. now rewrite E. Qed.

Lemma shotEnemyOuter_step fuel i g shot g1 :
  nth_error (SpaceGame.shots g) i = Some shot ->
  SpaceGame.shotEnemyInner (S (length (enemies g))) shot i 0 g = Some g1 ->
  SpaceGame.shotEnemyOuter (S fuel) i g = SpaceGame.shotEnemyOuter fuel (S i) g1.
Proof. intros E E1. cbn [SpaceGame.shotEnemyOuter]. now rewrite E, E1. Qed.

Lemma shotEnemyInner_exit fuel shot i j g :
  nth_error (enemies g) j = None ->
  SpaceGame.shotEnemyInner (S fuel) shot i j g = Some g.
Proof. intros E. cbn [SpaceGame.shotEnemyInner]. now rewrite E. Qed.

Lemma shotEnemyInner_hit fuel shot i j g enemy :
  nth_error (enemies g) j = Some enemy ->
  HitBox.collision (PlayerWeaponShot.hitbox shot) (Enemy.hitbox enemy) = true ->
  SpaceGame.shotEnemyInner (S fuel) shot i j g =
  SpaceGame.shotEnemyInner fuel shot i (S j)
    (with_collections g (splice1 i (SpaceGame.shots g))
       (splice1 j (enemies g))).
Proof. intros E H. cbn [SpaceGame.shotEnemyInner]. now rewrite E, H. Qed.

Lemma shotEnemyInner_miss fuel shot i j g enemy :
  nth_error (enemies g) j = Some enemy ->
  HitBox.collision (PlayerWeaponShot.hitbox shot) (Enemy.hitbox enemy) = false ->
  SpaceGame.shotEnemyInner (S fuel) shot i j g =
  SpaceGame.shotEnemyInner fuel shot i (S j) g.
Proof. intros E H. cbn [SpaceGame.shotEnemyInner]. now rewrite E, H. Qed.

(** One shot, one enemy, overlapping: both go. *)
Lemma pass_one_shot_one_enemy g shot enemy :
  SpaceGame.shots g = [shot] ->
  enemies g = [enemy] ->
  HitBox.collision (PlayerWeaponShot.hitbox shot) (Enemy.hitbox enemy) = true ->
  SpaceGame.handleShotEnemyCollision g = Some (with_collections g [] []).
Proof.
  intros Hs He Hc. unfold SpaceGame.handleShotEnemyCollision.
  rewrite Hs. cbn [length].
  erewrite shotEnemyOuter_step.
  - apply shotEnemyOuter_exit. reflexivity.
  - rewrite Hs. reflexivity.
  - rewrite He. cbn [length].
    erewrite shotEnemyInner_hit; [| rewrite He; reflexivity | exact Hc].
    rewrite Hs, He. apply shotEnemyInner_exit. reflexivity.
Qed.

(** One shot, two enemies, both overlapping it: the first enemy goes, the
    second moves to index 0 and the loop, now at index 1, never tests it. *)
Lemma pass_one_shot_two_enemies g shot e0 e1 :
  SpaceGame.shots g = [shot] ->
  enemies g = [e0; e1] ->
  HitBox.collision (PlayerWeaponShot.hitbox shot) (Enemy.hitbox e0) = true ->
  SpaceGame.handleShotEnemyCollision g = Some (with_collections g [] [e1]).
Proof.
  intros Hs He Hc. unfold SpaceGame.handleShotEnemyCollision.
  rewrite Hs. cbn [length].
  erewrite shotEnemyOuter_step.
  - apply shotEnemyOuter_exit. reflexivity.
  - rewrite Hs. reflexivity.
  - rewrite He. cbn [length].
    erewrite shotEnemyInner_hit; [| rewrite He; reflexivity | exact Hc].
    rewrite Hs, He. apply shotEnemyInner_exit. reflexivity.
Qed.

(** One shot, three enemies, the first and the third overlapping it: the
    first hit removes the shot and the first enemy; the third enemy, now
    at index 1, is tested against the shot the variable still holds, and
    goes too.  The second is skipped. *)
Lemma pass_one_shot_three_enemies g shot e0 e1 e2 :
  SpaceGame.shots g = [shot] ->
  enemies g = [e0; e1; e2] ->
  HitBox.collision (PlayerWeaponShot.hitbox shot) (Enemy.hitbox e0) = true ->
  HitBox.collision (PlayerWeaponShot.hitbox shot) (Enemy.hitbox e2) = true ->
  SpaceGame.handleShotEnemyCollision g = Some (with_collections g [] [e1]).
Proof.
  intros Hs He Hc0 Hc2. unfold SpaceGame.handleShotEnemyCollision.
  rewrite Hs. cbn [length].
  erewrite shotEnemyOuter_step.
  - apply shotEnemyOuter_exit. reflexivity.
  - rewrite Hs. reflexivity.
  - rewrite He. cbn [length].
    erewrite shotEnemyInner_hit; [| rewrite He; reflexivity | exact Hc0].
    rewrite Hs, He.
    erewrite shotEnemyInner_hit; [| reflexivity | exact Hc2].
    apply shotEnemyInner_exit. reflexivity.
Qed.

(** ** One frame's update *)

Lemma moved_shots g :
  SpaceGame.shots (moved g) = map PlayerWeaponShot.update (SpaceGame.shots g).
Proof. reflexivity. Qed.

Lemma moved_enemies g : enemies (moved g) = map Enemy.update (enemies g).
Proof. reflexivity. Qed.

Lemma moved_gameOver g : gameOver (moved g) = gameOver g.
Proof. reflexivity. Qed.

Lemma update_unfold g :
  SpaceGame.update g =
  match SpaceGame.handleShotEnemyCollision (moved g) with
  | None => None
  | Some g1 =>
      Some (SpaceGame.handlePlayerWeaponEnemyCollision
              (SpaceGame.handlePlayerEnemyCollision g1))
  end.
Proof. reflexivity. Qed.

(** [update], [animate] and every event return. *)
Lemma update_total g : exists g', SpaceGame.update g = Some g'.
Proof.
  rewrite update_unfold.
  destruct (handleShotEnemyCollision_total (moved g)) as (g1 & -> & _).
  eexists. reflexivity.
Qed.

Lemma animate_total g : exists g', SpaceGame.animate g = Some g'.
Proof.
  unfold SpaceGame.animate. destruct (gameOver g); [now exists g |].
  apply update_total.
Qed.

Lemma handle_total g e : exists g', SpaceGame.handle g e = Some g'.
Proof.
  destruct e; cbn [SpaceGame.handle]; [apply animate_total | |]; eexists;
    reflexivity.
Qed.

Lemma run_total evs : forall g, exists g', SpaceGame.run evs g = Some g'.
Proof.
  induction evs as [| e evs IH]; intros g; cbn [SpaceGame.run].
  - now exists g.
  - destruct (handle_total g e) as (g1 & ->). apply IH.
Qed.

(** C5. In a state with exactly one shot and exactly one enemy whose hit
    boxes overlap, the enemy overlapping neither the player's nor the
    weapon's hit box and the game not over, the shot-enemy pass alone, and
    [update] as a whole, return a state with no shot and no enemy left,
    and [gameOver] still false. *)
Theorem one_shot_one_enemy_eliminated (g : SpaceGame.t)
    (shot : PlayerWeaponShot.t) (enemy : Enemy.t) :
  SpaceGame.shots g = [shot] ->
  enemies g = [enemy] ->
  HitBox.collision (PlayerWeaponShot.hitbox shot) (Enemy.hitbox enemy) = true ->
  HitBox.collision (Enemy.hitbox enemy) (Player.hitbox (player g)) = false ->
  HitBox.collision (Enemy.hitbox enemy)
    (PlayerWeapon.hitbox (Player.weapon (player g))) = false ->
  gameOver g = false ->
  (exists g1,
     SpaceGame.handleShotEnemyCollision g = Some g1 /\
     SpaceGame.shots g1 = [] /\ enemies g1 = [] /\ gameOver g1 = false) /\
  (exists g',
     SpaceGame.update g = Some g' /\
     SpaceGame.shots g' = [] /\ enemies g' = [] /\ gameOver g' = false).
Proof.
  intros Hs He Hc _ _ Hg. split.
  - exists (with_collections g [] []).
    split; [exact (pass_one_shot_one_enemy g Hs He Hc) |].
    repeat split. exact Hg.
  - rewrite update_unfold.
    rewrite (@pass_one_shot_one_enemy (moved g)
               (PlayerWeaponShot.update shot) (Enemy.update enemy)).
    + eexists. split; [reflexivity |]. repeat split. exact Hg.
    + rewrite moved_shots, Hs. reflexivity.
    + rewrite moved_enemies, He. reflexivity.
    + destruct (shot_update_frame shot) as (_ & _ & ->).
      destruct (enemy_update_frame enemy) as (_ & _ & _ & ->).
      exact Hc.
Qed.

(** A shot fired to the left and an enemy heading left, neither drawn
    yet: their boxes, (0, 0, 5, 5) and (0, 0, 25, 25), overlap, away from
    the player in the middle of the 800 by 600 field. *)
Lemma one_shot_one_enemy_eliminated_witness :
  let shot := PlayerWeaponShot.new 0 0 Left 30 in
  let enemy := Enemy.new (mkCanvas 800 600) Left in
  let g := with_collections (SpaceGame.new (mkCanvas 800 600)) [shot] [enemy] in
  exists g',
    SpaceGame.update g = Some g' /\
    SpaceGame.shots g' = [] /\ enemies g' = [] /\ gameOver g' = false.
Proof.
  intros shot enemy g.
  refine (proj2 (@one_shot_one_enemy_eliminated g shot enemy
                   eq_refl eq_refl _ _ _ eq_refl)); vm_compute; reflexivity.
Defined.

(** ** The stale shot *)

(** One shot over two enemies: the pass leaves the second enemy, here and
    in every such state; no state with one shot and two enemies under it
    loses both. *)
Lemma stale_shot_two_enemies_counterexample :
  (SpaceGame.shots one_shot_two_enemies = [origin_shot] /\
   enemies one_shot_two_enemies = [origin_enemy Down; origin_enemy Left] /\
   HitBox.collision (PlayerWeaponShot.hitbox origin_shot)
     (Enemy.hitbox (origin_enemy Down)) = true /\
   HitBox.collision (PlayerWeaponShot.hitbox origin_shot)
     (Enemy.hitbox (origin_enemy Left)) = true /\
   exists g',
     SpaceGame.handleShotEnemyCollision one_shot_two_enemies = Some g' /\
     enemies g' = [origin_enemy Left]) /\
  ~ (exists g shot e0 e1 g',
       SpaceGame.shots g = [shot] /\
       enemies g = [e0; e1] /\
       HitBox.collision (PlayerWeaponShot.hitbox shot) (Enemy.hitbox e0) = true /\
       HitBox.collision (PlayerWeaponShot.hitbox shot) (Enemy.hitbox e1) = true /\
       SpaceGame.handleShotEnemyCollision g = Some g' /\
       enemies g' = []).
Proof.
  split.
  - repeat split. eexists. split; reflexivity.
  - intros (g & shot & e0 & e1 & g' & Hs & He & Hc0 & _ & Hr & Hn).
    rewrite (pass_one_shot_two_enemies g Hs He Hc0) in Hr.
    injection Hr as <-. discriminate Hn.
Qed.

(** C8, amended. With exactly one shot and two enemies, the shot
    overlapping both, one run of the shot-enemy pass removes the shot and
    the first enemy only: the second moves to index 0 and is never tested.
    With exactly one shot and three enemies, the shot overlapping all
    three, one run removes the first and the third enemy though only one
    shot existed: after the first hit the loop goes on testing the shot
    its variable still holds; the second enemy stays. *)
Theorem stale_shot_hits_again (g : SpaceGame.t) (shot : PlayerWeaponShot.t)
    (e0 e1 e2 : Enemy.t) :
  HitBox.collision (PlayerWeaponShot.hitbox shot) (Enemy.hitbox e0) = true ->
  HitBox.collision (PlayerWeaponShot.hitbox shot) (Enemy.hitbox e1) = true ->
  HitBox.collision (PlayerWeaponShot.hitbox shot) (Enemy.hitbox e2) = true ->
  SpaceGame.handleShotEnemyCollision (with_collections g [shot] [e0; e1])
    = Some (with_collections g [] [e1]) /\
  SpaceGame.handleShotEnemyCollision (with_collections g [shot] [e0; e1; e2])
    = Some (with_collections g [] [e1]).
Proof.
  intros H0 _ H2. split.
  - exact (@pass_one_shot_two_enemies (with_collections g [shot] [e0; e1])
             shot e0 e1 eq_refl eq_refl H0).
  - exact (@pass_one_shot_three_enemies
             (with_collections g [shot] [e0; e1; e2])
             shot e0 e1 e2 eq_refl eq_refl H0 H2).
Qed.

Lemma stale_shot_hits_again_witness :
  let g := SpaceGame.new (mkCanvas 800 600) in
  let e0 := origin_enemy Down in
  let e1 := origin_enemy Left in
  let e2 := origin_enemy Right in
  SpaceGame.handleShotEnemyCollision
    (with_collections g [origin_shot] [e0; e1])
    = Some (with_collections g [] [e1]) /\
  SpaceGame.handleShotEnemyCollision
    (with_collections g [origin_shot] [e0; e1; e2])
    = Some (with_collections g [] [e1]).
Proof.
  intros g e0 e1 e2.
  apply (@stale_shot_hits_again g origin_shot e0 e1 e2); vm_compute;
    reflexivity.
Defined.

(** ** The spawn timer and the size of the collection *)

Lemma run_spawns ds : forall g,
  SpaceGame.run (map SpaceGame.Spawn ds) g = Some (spawns ds g).
Proof. induction ds as [| d ds IH]; intros g; [reflexivity | apply IH]. Qed.

Lemma removelast_firstn_length {A : Type} (a : list A) :
  removelast a = firstn (length a - 1) a.
Proof.
  induction a as [| v a IH]; [reflexivity |].
  destruct a as [| v' a]; [reflexivity |].
  change (removelast (v :: v' :: a)) with (v :: removelast (v' :: a)).
  rewrite IH.
  replace (length (v :: v' :: a) - 1)%nat
    with (S (length (v' :: a) - 1)) by (cbn [length]; lia).
  reflexivity.
Qed.

(** One spawn, by the size of the collection it finds. *)
Lemma spawn_below_19 g d :
  (length (enemies g) < 19)%nat ->
  enemies (SpaceGame.spawn g d) = Enemy.new (SpaceGame.canvas g) d :: enemies g.
Proof.
  intros H. unfold SpaceGame.spawn. cbv zeta.
  destruct (Nat.leb_spec 20 (length (enemies (SpaceGame.spawnUnshift g d))));
    [cbn in *; lia | reflexivity].
Qed.

Lemma spawn_from_19 g d :
  (19 <= length (enemies g))%nat ->
  enemies (SpaceGame.spawn g d) =
  Enemy.new (SpaceGame.canvas g) d :: removelast (enemies g).
Proof.
  intros H. unfold SpaceGame.spawn. cbv zeta.
  destruct (Nat.leb_spec 20 (length (enemies (SpaceGame.spawnUnshift g d))));
    [| cbn in *; lia].
  cbn. destruct (enemies g); [cbn in H; lia | reflexivity].
Qed.

Lemma spawn_canvas g d : SpaceGame.canvas (SpaceGame.spawn g d) = SpaceGame.canvas g.
Proof.
  unfold SpaceGame.spawn. cbv zeta. destruct (_ <=? _)%nat; reflexivity.
Qed.

Lemma spawn_firstn g d :
  (length (enemies g) <= 19)%nat ->
  enemies (SpaceGame.spawn g d) =
  firstn 19 (Enemy.new (SpaceGame.canvas g) d :: enemies g).
Proof.
  intros H. destruct (Nat.lt_ge_cases (length (enemies g)) 19) as [L | L].
  - rewrite spawn_below_19 by exact L.
    symmetry. apply firstn_all2. cbn. lia.
  - rewrite spawn_from_19 by exact L.
    rewrite removelast_firstn_length.
    replace (length (enemies g) - 1)%nat with 18%nat by lia. reflexivity.
Qed.

Lemma spawn_length_le_19 g d :
  (length (enemies g) <= 19)%nat ->
  (length (enemies (SpaceGame.spawn g d)) <= 19)%nat.
Proof.
  intros H. rewrite spawn_firstn by exact H. rewrite length_firstn. lia.
Qed.

Lemma firstn_app_firstn {A : Type} (n : nat) (a b : list A) :
  firstn n (a ++ firstn n b) = firstn n (a ++ b).
Proof.
  rewrite !firstn_app, firstn_firstn.
  replace (Nat.min (n - length a) n) with (n - length a)%nat by lia.
  reflexivity.
Qed.

(** The collection after a run of spawns: the last 19 spawned, newest
    first, as long as what was there before leaves room. *)
Lemma spawns_enemies ds : forall g,
  (length (enemies g) <= 19)%nat ->
  enemies (spawns ds g) =
  firstn 19 (rev (map (Enemy.new (SpaceGame.canvas g)) ds) ++ enemies g).
Proof.
  induction ds as [| d ds IH]; intros g H; cbn [spawns fold_left map rev].
  - change (enemies g = firstn 19 (enemies g)).
    symmetry. apply firstn_all2. exact H.
  - change (fold_left SpaceGame.spawn ds (SpaceGame.spawn g d))
      with (spawns ds (SpaceGame.spawn g d)).
    rewrite IH by (apply spawn_length_le_19; exact H).
    rewrite spawn_canvas, spawn_firstn by exact H.
    rewrite firstn_app_firstn, <- app_assoc. reflexivity.
Qed.

(** What a frame does to a game that is not over: the shot-enemy pass
    shrinks the drawn and moved game, and the two other passes keep
    canvas, player and enemies. *)
Lemma animate_shrinks g g' :
  SpaceGame.animate g = Some g' ->
  g' = g \/
  exists g1,
    shrinks (moved (SpaceGame.draw g)) g1 /\
    SpaceGame.canvas g' = SpaceGame.canvas g1 /\
    player g' = player g1 /\ enemies g' = enemies g1.
Proof.
  unfold SpaceGame.animate. destruct (gameOver g).
  - intros [= <-]. left. reflexivity.
  - rewrite update_unfold.
    destruct (handleShotEnemyCollision_total (moved (SpaceGame.draw g)))
      as (g1 & -> & Sh).
    intros [= <-]. right. exists g1. split; [exact Sh |].
    unfold SpaceGame.handlePlayerWeaponEnemyCollision.
    destruct (playerWeaponEnemyLoop_frame
                (enemies (SpaceGame.handlePlayerEnemyCollision g1))
                (SpaceGame.handlePlayerEnemyCollision g1)) as (-> & -> & ->).
    unfold SpaceGame.handlePlayerEnemyCollision.
    destruct (playerEnemyLoop_frame (enemies g1) g1) as (-> & -> & ->).
    repeat split.
Qed.

(** Frames and keys never add an enemy. *)
Lemma animate_enemies_length g g' :
  SpaceGame.animate g = Some g' ->
  (length (enemies g') <= length (enemies g))%nat.
Proof.
  intros H. destruct (animate_shrinks g H) as [-> | (g1 & Sh & _ & _ & ->)];
    [lia |].
  pose proof (shrinks_enemies_length Sh) as L.
  rewrite moved_enemies in L. cbn in L. rewrite !length_map in L. exact L.
Qed.

Lemma handle_enemies_le_19 g e g' :
  SpaceGame.handle g e = Some g' ->
  (length (enemies g) <= 19)%nat -> (length (enemies g') <= 19)%nat.
Proof.
  destruct e as [| d | k]; cbn [SpaceGame.handle]; intros H L.
  - pose proof (animate_enemies_length g H). lia.
  - injection H as <-. apply spawn_length_le_19. exact L.
  - injection H as <-. exact L.
Qed.

(** From the constructed game on, whatever the events, the collection
    holds at most 19 enemies. *)
Lemma run_enemies_le_19 evs : forall g g',
  SpaceGame.run evs g = Some g' ->
  (length (enemies g) <= 19)%nat -> (length (enemies g') <= 19)%nat.
Proof.
  induction evs as [| e evs IH]; intros g g'; cbn [SpaceGame.run].
  - intros [= <-] L. exact L.
  - destruct (SpaceGame.handle g e) as [g1 |] eqn:E; [| discriminate].
    intros H L. apply (IH g1 g' H). exact (handle_enemies_le_19 g e E L).
Qed.

Lemma reachable_enemies_le_19 (c : Canvas) (evs : list SpaceGame.Event) :
  exists g, SpaceGame.run evs (SpaceGame.new c) = Some g /\
            (length (enemies g) <= 19)%nat.
Proof.
  destruct (run_total evs (SpaceGame.new c)) as (g & Hg).
  exists g. split; [exact Hg |].
  apply (run_enemies_le_19 evs _ Hg). cbn. lia.
Qed.

(** No event changes the canvas the game was constructed on. *)
Lemma shrinks_canvas g g' :
  shrinks g g' -> SpaceGame.canvas g' = SpaceGame.canvas g.
Proof. intros (s & es & -> & _). reflexivity. Qed.

Lemma animate_canvas g g' :
  SpaceGame.animate g = Some g' -> SpaceGame.canvas g' = SpaceGame.canvas g.
Proof.
  intros H. destruct (animate_shrinks g H) as [-> | (g1 & Sh & -> & _)];
    [reflexivity |].
  rewrite (shrinks_canvas Sh). reflexivity.
Qed.

Lemma run_canvas evs : forall g g',
  SpaceGame.run evs g = Some g' -> SpaceGame.canvas g' = SpaceGame.canvas g.
Proof.
  induction evs as [| e evs IH]; intros g g'; cbn [SpaceGame.run].
  - now intros [= <-].
  - destruct (SpaceGame.handle g e) as [g1 |] eqn:E; [| discriminate].
    intros H. rewrite (IH g1 g' H).
    destruct e as [| d | k]; cbn [SpaceGame.handle] in E.
    + exact (animate_canvas g E).
    + injection E as <-. apply spawn_canvas.
    + injection E as <-. reflexivity.
Qed.

(** C3. Whatever events a game has handled since its construction
    (spawns, frames, keys, in any number and order), its collection holds
    at most 20 enemies, also in the middle of the next spawn, between the
    [unshift] and the [pop], and after it.  In a run of spawns alone, the
    21st spawn finds the 19 enemies of spawns 20 down to 2, newest first;
    it puts its enemy in front and drops exactly the last entry, the
    enemy of spawn 2, which is the oldest one there. *)
Theorem enemies_cap_20 (c : Canvas) (evs : list SpaceGame.Event)
    (ds : list PlayerDirection.t) (d21 : PlayerDirection.t) :
  (exists g,
     SpaceGame.run evs (SpaceGame.new c) = Some g /\
     (length (enemies g) <= 20)%nat /\
     (length (enemies (SpaceGame.spawnUnshift g d21)) <= 20)%nat /\
     (length (enemies (SpaceGame.spawn g d21)) <= 20)%nat) /\
  (length ds = 20%nat ->
   let before := enemies (spawns ds (SpaceGame.new c)) in
   let after := enemies (SpaceGame.spawn (spawns ds (SpaceGame.new c)) d21) in
   before = map (Enemy.new c) (firstn 19 (rev ds)) /\
   before = removelast before ++ [Enemy.new c (nth 1 ds Up)] /\
   after = Enemy.new c d21 :: removelast before).
Proof.
  split.
  - destruct (reachable_enemies_le_19 c evs) as (g & Hg & L).
    exists g. split; [exact Hg |]. split; [lia |].
    split; [cbn; lia |].
    pose proof (spawn_length_le_19 g d21 L). lia.
  - intros Hds before after.
    assert (Hb : before = map (Enemy.new c) (firstn 19 (rev ds))).
    { subst before. rewrite spawns_enemies by (cbn; lia).
      cbn [SpaceGame.new SpaceGame.canvas enemies].
      rewrite app_nil_r, <- map_rev, firstn_map. reflexivity. }
    split; [exact Hb |]. split.
    + rewrite Hb. clear - Hds.
      do 20 (destruct ds as [| ? ds]; [discriminate Hds |]).
      destruct ds; [| discriminate Hds]. cbn.
      rewrite <- ?app_assoc. reflexivity.
    + subst after. rewrite spawn_from_19.
      * rewrite (run_canvas (map SpaceGame.Spawn ds) _ (run_spawns ds _)).
        reflexivity.
      * fold before. rewrite Hb, length_map, length_firstn, length_rev. lia.
Qed.

(** Twenty spawns heading down, then one heading left. *)
Lemma enemies_cap_20_witness :
  let c := mkCanvas 800 600 in
  let ds := repeat Down 20 in
  let before := enemies (spawns ds (SpaceGame.new c)) in
  let after := enemies (SpaceGame.spawn (spawns ds (SpaceGame.new c)) Left) in
  length ds = 20%nat /\
  length before = 19%nat /\
  after = Enemy.new c Left :: removelast before /\
  length after = 19%nat.
Proof.
  intros c ds before after.
  destruct (enemies_cap_20 c [] ds Left) as [_ H].
  destruct (H eq_refl) as (_ & _ & Ha). fold before after in Ha.
  split; [reflexivity |]. split; [reflexivity |].
  split; [exact Ha | reflexivity].
Defined.

(** C9. Whatever events a game has handled since its construction, its
    collection holds at most 19 enemies, and so after one more spawn: a
    spawn that finds 19 enemies puts the new one in front, drops the last
    and leaves 19 again, so no finished spawn leaves 20. *)
Theorem spawn_leaves_at_most_19 (c : Canvas) (evs : list SpaceGame.Event)
    (d : PlayerDirection.t) :
  exists g,
    SpaceGame.run evs (SpaceGame.new c) = Some g /\
    (length (enemies g) <= 19)%nat /\
    (length (enemies (SpaceGame.spawn g d)) <= 19)%nat /\
    (length (enemies g) = 19%nat ->
     length (enemies (SpaceGame.spawnUnshift g d)) = 20%nat /\
     enemies (SpaceGame.spawn g d) = Enemy.new c d :: removelast (enemies g) /\
     length (enemies (SpaceGame.spawn g d)) = 19%nat).
Proof.
  destruct (reachable_enemies_le_19 c evs) as (g & Hg & L).
  exists g. split; [exact Hg |]. split; [exact L |].
  split; [apply spawn_length_le_19; exact L |].
  intros H19. split; [cbn; lia |].
  rewrite spawn_from_19 by lia.
  rewrite (run_canvas evs _ Hg). split; [reflexivity |].
  cbn [length]. rewrite removelast_firstn_length, length_firstn. lia.
Qed.

(** Nineteen spawns, then a twentieth: still 19 enemies. *)
Lemma spawn_leaves_at_most_19_witness :
  let c := mkCanvas 800 600 in
  let g19 := spawns (repeat Down 19) (SpaceGame.new c) in
  length (enemies g19) = 19%nat /\
  enemies (SpaceGame.spawn g19 Up) = Enemy.new c Up :: removelast (enemies g19) /\
  length (enemies (SpaceGame.spawn g19 Up)) = 19%nat.
Proof.
  intros c g19.
  destruct (spawn_leaves_at_most_19 c (map SpaceGame.Spawn (repeat Down 19)) Up)
    as (g & Hg & _ & _ & H).
  rewrite run_spawns in Hg.
  assert (E : g19 = g)
    by exact (f_equal (fun o => match o with Some x => x | None => g end) Hg).
  destruct E.
  destruct (H eq_refl) as (_ & He & Hl).
  split; [reflexivity |]. split; [exact He | exact Hl].
Defined.

(** * Further properties *)

(** ** Dropping elements of an array *)

Lemma subseq_refl {A : Type} (l : list A) : subseq l l.
Proof. induction l; constructor; assumption. Qed.

Lemma subseq_trans {A : Type} (l1 l2 l3 : list A) :
  subseq l1 l2 -> subseq l2 l3 -> subseq l1 l3.
Proof.
  intros H12 H23. revert l1 H12.
  induction H23 as [| v l2 l3 H23 IH | v l2 l3 H23 IH]; intros l1 H12.
  - exact H12.
  - constructor. apply IH. exact H12.
  - inversion H12; subst; constructor; apply IH; assumption.
Qed.

Lemma subseq_length {A : Type} (l1 l2 : list A) :
  subseq l1 l2 -> (length l1 <= length l2)%nat.
Proof. induction 1; cbn; lia. Qed.

Lemma subseq_incl {A : Type} (l1 l2 : list A) : subseq l1 l2 -> incl l1 l2.
Proof.
  induction 1 as [| v l1 l2 H IH | v l1 l2 H IH]; intros a Ha.
  - exact Ha.
  - right. apply IH. exact Ha.
  - destruct Ha as [-> | Ha]; [left; reflexivity | right; apply IH; exact Ha].
Qed.

(** A subsequence as long as the whole is the whole. *)
Lemma subseq_same_length {A : Type} (l1 l2 : list A) :
  subseq l1 l2 -> length l1 = length l2 -> l1 = l2.
Proof.
  induction 1 as [| v l1 l2 H IH | v l1 l2 H IH]; cbn; intros L.
  - reflexivity.
  - pose proof (subseq_length H). lia.
  - f_equal. apply IH. lia.
Qed.

Lemma subseq_app_r {A : Type} (l1 l2 pre : list A) :
  subseq l1 l2 -> subseq l1 (pre ++ l2).
Proof. intros H. induction pre; cbn; [exact H | constructor; exact IHpre]. Qed.

Lemma subseq_app {A : Type} (a1 a2 b1 b2 : list A) :
  subseq a1 a2 -> subseq b1 b2 -> subseq (a1 ++ b1) (a2 ++ b2).
Proof. intros Ha Hb. induction Ha; cbn; try constructor; assumption. Qed.

Lemma subseq_nil_l {A : Type} (l : list A) : subseq [] l.
Proof. induction l; constructor; assumption. Qed.

Lemma subseq_firstn {A : Type} (n : nat) (l : list A) : subseq (firstn n l) l.
Proof.
  revert n. induction l as [| v l IH]; intros [| n]; cbn.
  - constructor.
  - constructor.
  - apply subseq_nil_l.
  - apply subseq_keep. apply IH.
Qed.

Lemma subseq_skipn {A : Type} (n : nat) (l : list A) : subseq (skipn n l) l.
Proof.
  revert n. induction l as [| v l IH]; intros [| n]; cbn.
  - constructor.
  - constructor.
  - apply subseq_refl.
  - apply subseq_skip. apply IH.
Qed.

Lemma subseq_splice1 {A : Type} (i : nat) (a : list A) :
  subseq (splice1 i a) a.
Proof.
  unfold splice1. rewrite <- (firstn_skipn i a) at 3.
  apply subseq_app; [apply subseq_refl |].
  revert i. induction a as [| v a IH]; intros [| i]; cbn.
  - constructor.
  - constructor.
  - apply subseq_skip. apply subseq_refl.
  - apply IH.
Qed.

Lemma subseq_map {A B : Type} (f : A -> B) (l1 l2 : list A) :
  subseq l1 l2 -> subseq (map f l1) (map f l2).
Proof. induction 1; cbn; constructor; assumption. Qed.

Lemma subseq_removelast {A : Type} (l : list A) : subseq (removelast l) l.
Proof.
  induction l as [| v l IH]; [constructor |].
  destruct l as [| v' l]; [repeat constructor |].
  change (removelast (v :: v' :: l)) with (v :: removelast (v' :: l)).
  apply subseq_keep. exact IH.
Qed.

(** ** What the shot-enemy pass keeps *)

Lemma drops_refl g : drops g g.
Proof.
  exists (SpaceGame.shots g), (enemies g).
  rewrite with_collections_id. auto using subseq_refl.
Qed.

Lemma drops_trans g1 g2 g3 : drops g1 g2 -> drops g2 g3 -> drops g1 g3.
Proof.
  intros (s2 & e2 & -> & Hs2 & He2) (s3 & e3 & -> & Hs3 & He3).
  rewrite with_collections_shots in Hs3.
  rewrite with_collections_enemies in He3.
  exists s3, e3. rewrite with_collections_twice.
  split; [reflexivity |]. split; eapply subseq_trans; eassumption.
Qed.

Lemma drops_splice (g : SpaceGame.t) (i j : nat) :
  drops g
    (with_collections g (splice1 i (SpaceGame.shots g))
       (splice1 j (enemies g))).
Proof.
  exists (splice1 i (SpaceGame.shots g)), (splice1 j (enemies g)).
  auto using subseq_splice1.
Qed.

Lemma shotEnemyInner_drops shot i :
  forall fuel j g g',
    SpaceGame.shotEnemyInner fuel shot i j g = Some g' -> drops g g'.
Proof.
  induction fuel as [| fuel IH]; intros j g g'; [discriminate |].
  cbn [SpaceGame.shotEnemyInner].
  destruct (nth_error (enemies g) j) as [enemy |].
  - destruct (HitBox.collision _ _); cbv zeta; intros H.
    + eapply drops_trans; [apply (drops_splice g i j) |].
      exact (IH _ _ _ H).
    + exact (IH _ _ _ H).
  - intros [= <-]. apply drops_refl.
Qed.

Lemma shotEnemyOuter_drops :
  forall fuel i g g', SpaceGame.shotEnemyOuter fuel i g = Some g' -> drops g g'.
Proof.
  induction fuel as [| fuel IH]; intros i g g'; [discriminate |].
  cbn [SpaceGame.shotEnemyOuter].
  destruct (nth_error (SpaceGame.shots g) i) as [shot |].
  - destruct (SpaceGame.shotEnemyInner _ shot i 0 g) as [g1 |] eqn:E;
      [| discriminate].
    intros H. eapply drops_trans;
      [eapply shotEnemyInner_drops; exact E | exact (IH _ _ _ H)].
  - intros [= <-]. apply drops_refl.
Qed.

Lemma handleShotEnemyCollision_drops g :
  exists g', SpaceGame.handleShotEnemyCollision g = Some g' /\ drops g g'.
Proof.
  destruct (handleShotEnemyCollision_total g) as (g' & Hg' & _).
  exists g'. split; [exact Hg' |].
  eapply shotEnemyOuter_drops; exact Hg'.
Qed.

(** X1. [handleShotEnemyCollision] returns on every game, and what it
    returns is the game with some shots and some enemies dropped: the
    shots and enemies left are subsequences of those before (nothing is
    added, reordered or modified), and canvas, game-over flag, player,
    ammo and the weapon's box are as before. *)
Theorem shot_pass_only_drops (g : SpaceGame.t) :
  exists g',
    SpaceGame.handleShotEnemyCollision g = Some g' /\
    subseq (SpaceGame.shots g') (SpaceGame.shots g) /\
    subseq (enemies g') (enemies g) /\
    SpaceGame.canvas g' = SpaceGame.canvas g /\
    gameOver g' = gameOver g /\
    Player.hitbox (player g') = Player.hitbox (player g) /\
    Player.direction (player g') = Player.direction (player g) /\
    PlayerWeapon.ammo (Player.weapon (player g'))
      = PlayerWeapon.ammo (Player.weapon (player g)) /\
    PlayerWeapon.hitbox (Player.weapon (player g'))
      = PlayerWeapon.hitbox (Player.weapon (player g)) /\
    g' = with_collections g (SpaceGame.shots g') (enemies g').
Proof.
  destruct (handleShotEnemyCollision_drops g) as (g' & Hg' & s & es & -> & Hs & He).
  eexists. split; [exact Hg' |].
  rewrite with_collections_shots, with_collections_enemies.
  repeat split; assumption.
Qed.

(** ** When the shot-enemy pass changes the game *)

Lemma hits_some_false s es :
  hits_some s es = false ->
  forall e, In e es ->
    HitBox.collision (PlayerWeaponShot.hitbox s) (Enemy.hitbox e) = false.
Proof.
  unfold hits_some. intros H e He.
  destruct (HitBox.collision _ _) eqn:C; [| reflexivity].
  rewrite <- H. symmetry. apply existsb_exists. exists e. auto.
Qed.

Lemma skipn_nth_error_Some {A : Type} (l : list A) (j : nat) (v : A) :
  nth_error l j = Some v -> skipn j l = v :: skipn (S j) l.
Proof.
  revert j. induction l as [| a l IH]; intros [| j]; cbn; try discriminate.
  - now intros [= ->].
  - intros H. rewrite (IH j H). reflexivity.
Qed.

Lemma skipn_nth_error_None {A : Type} (l : list A) (j : nat) :
  nth_error l j = None -> skipn j l = [].
Proof. intros H. apply skipn_all2. apply nth_error_None. exact H. Qed.

Lemma splice1_length {A : Type} (i : nat) (a : list A) :
  (i < length a)%nat -> S (length (splice1 i a)) = length a.
Proof.
  intros H. unfold splice1.
  rewrite length_app, length_firstn, length_skipn. lia.
Qed.

(** A shot that overlaps no enemy goes through the inner loop without a
    change. *)
Lemma shotEnemyInner_no_hit shot i :
  forall fuel j g,
    hits_some shot (enemies g) = false ->
    (length (enemies g) - j < fuel)%nat ->
    SpaceGame.shotEnemyInner fuel shot i j g = Some g.
Proof.
  induction fuel as [| fuel IH]; intros j g Hn Hf; [lia |].
  destruct (nth_error (enemies g) j) as [enemy |] eqn:E.
  - assert (Hj : (j < length (enemies g))%nat)
      by (apply nth_error_Some; congruence).
    rewrite (shotEnemyInner_miss _ _ _ _ _ E).
    + apply IH; [exact Hn | lia].
    + apply (hits_some_false _ _ Hn). eapply nth_error_In. exact E.
  - apply shotEnemyInner_exit. exact E.
Qed.

(** A hit at or after index [j] costs an enemy, and a shot when [i]
    is an index of the shots. *)
Lemma shotEnemyInner_hit_shrinks shot i :
  forall fuel j g g',
    SpaceGame.shotEnemyInner fuel shot i j g = Some g' ->
    hits_some shot (skipn j (enemies g)) = true ->
    (i < length (SpaceGame.shots g))%nat ->
    (length (enemies g') < length (enemies g))%nat /\
    (length (SpaceGame.shots g') < length (SpaceGame.shots g))%nat.
Proof.
  induction fuel as [| fuel IH]; intros j g g'; [discriminate |].
  cbn [SpaceGame.shotEnemyInner].
  destruct (nth_error (enemies g) j) as [enemy |] eqn:E.
  - assert (Hj : (j < length (enemies g))%nat)
      by (apply nth_error_Some; congruence).
    rewrite (skipn_nth_error_Some _ _ E). unfold hits_some. cbn [existsb].
    destruct (HitBox.collision _ _); cbv zeta; intros H Hh Hi.
    + apply shotEnemyInner_drops in H.
      destruct H as (s' & es' & -> & Hs & He).
      apply subseq_length in Hs, He.
      rewrite with_collections_shots, with_collections_enemies.
      cbn in Hs, He.
      pose proof (splice1_length _ Hj). pose proof (splice1_length _ Hi).
      fold (SpaceGame.shots g) in Hs. lia.
    + exact (IH _ _ _ H Hh Hi).
  - rewrite (skipn_nth_error_None _ _ E). discriminate.
Qed.

Lemma shotEnemyOuter_no_hit :
  forall fuel i g,
    some_overlap g = false ->
    (length (SpaceGame.shots g) - i < fuel)%nat ->
    SpaceGame.shotEnemyOuter fuel i g = Some g.
Proof.
  induction fuel as [| fuel IH]; intros i g Hn Hf; [lia |].
  destruct (nth_error (SpaceGame.shots g) i) as [shot |] eqn:E.
  - assert (Hi : (i < length (SpaceGame.shots g))%nat)
      by (apply nth_error_Some; congruence).
    assert (Hs : hits_some shot (enemies g) = false).
    { destruct (hits_some shot (enemies g)) eqn:Hh; [| reflexivity].
      rewrite <- Hn. symmetry. apply existsb_exists.
      exists shot. split; [eapply nth_error_In; exact E | exact Hh]. }
    assert (E1 : SpaceGame.shotEnemyInner (S (length (enemies g))) shot i 0 g
                 = Some g)
      by (apply shotEnemyInner_no_hit; [exact Hs | lia]).
    erewrite shotEnemyOuter_step; [| exact E | exact E1].
    apply IH; [exact Hn | lia].
  - apply shotEnemyOuter_exit. exact E.
Qed.

Lemma shotEnemyOuter_hit_shrinks :
  forall fuel i g g',
    SpaceGame.shotEnemyOuter fuel i g = Some g' ->
    existsb (fun s => hits_some s (enemies g)) (skipn i (SpaceGame.shots g))
      = true ->
    (length (enemies g') < length (enemies g))%nat /\
    (length (SpaceGame.shots g') < length (SpaceGame.shots g))%nat.
Proof.
  induction fuel as [| fuel IH]; intros i g g'; [discriminate |].
  destruct (nth_error (SpaceGame.shots g) i) as [shot |] eqn:E.
  - assert (Hi : (i < length (SpaceGame.shots g))%nat)
      by (apply nth_error_Some; congruence).
    rewrite (skipn_nth_error_Some _ _ E). cbn [existsb].
    destruct (hits_some shot (enemies g)) eqn:Hh.
    + intros H _.
      destruct (@shotEnemyInner_total shot i (S (length (enemies g))) 0%nat g)
        as (g1 & E1 & _); [lia |].
      erewrite shotEnemyOuter_step in H; [| exact E | exact E1].
      destruct (@shotEnemyInner_hit_shrinks shot i _ 0%nat g g1 E1 Hh Hi)
        as [Le Ls].
      apply shotEnemyOuter_drops in H.
      destruct H as (s' & es' & -> & Hs & He).
      apply subseq_length in Hs, He.
      rewrite with_collections_shots, with_collections_enemies. lia.
    + assert (E1 : SpaceGame.shotEnemyInner (S (length (enemies g))) shot i 0 g
                   = Some g)
        by (apply shotEnemyInner_no_hit; [exact Hh | lia]).
      erewrite shotEnemyOuter_step; [| exact E | exact E1].
      cbn [orb]. intros H Hr. exact (IH _ _ _ H Hr).
  - rewrite (skipn_nth_error_None _ _ E). discriminate.
Qed.

(** X2. [handleShotEnemyCollision] changes the game exactly when some
    shot overlaps some enemy: with no overlapping pair (in particular
    with no shot or no enemy) it returns the game as it is, and with one
    it returns a game with at least one shot and one enemy fewer. *)
Theorem shot_pass_changes_iff_overlap (g : SpaceGame.t) :
  exists g',
    SpaceGame.handleShotEnemyCollision g = Some g' /\
    if some_overlap g
    then (length (enemies g') < length (enemies g))%nat /\
         (length (SpaceGame.shots g') < length (SpaceGame.shots g))%nat
    else g' = g.
Proof.
  destruct (some_overlap g) eqn:Ho.
  - destruct (handleShotEnemyCollision_total g) as (g' & Hg' & _).
    exists g'. split; [exact Hg' |].
    exact (@shotEnemyOuter_hit_shrinks _ 0%nat g g' Hg' Ho).
  - exists g. split; [| reflexivity].
    apply shotEnemyOuter_no_hit; [exact Ho | lia].
Qed.

(** ** Exactly one overlapping pair *)

Lemma splice1_middle {A : Type} (pre post : list A) (v : A) :
  splice1 (length pre) (pre ++ v :: post) = pre ++ post.
Proof.
  unfold splice1. rewrite firstn_app, firstn_all, Nat.sub_diag.
  cbn [firstn]. rewrite app_nil_r.
  replace (S (length pre)) with (length (pre ++ [v]))
    by (rewrite length_app; cbn; lia).
  replace (pre ++ v :: post) with ((pre ++ [v]) ++ post)
    by (rewrite <- app_assoc; reflexivity).
  rewrite skipn_app, skipn_all, Nat.sub_diag. reflexivity.
Qed.

Lemma nth_error_middle {A : Type} (pre post : list A) (v : A) :
  nth_error (pre ++ v :: post) (length pre) = Some v.
Proof. rewrite nth_error_app2, Nat.sub_diag by lia. reflexivity. Qed.

Lemma hits_some_incl s es es' :
  incl es' es -> hits_some s es = false -> hits_some s es' = false.
Proof.
  intros Hi Hn. destruct (hits_some s es') eqn:H; [| reflexivity].
  apply existsb_exists in H. destruct H as (e & He & Hc).
  rewrite (hits_some_false _ _ Hn e (Hi e He)) in Hc. discriminate.
Qed.

(** The inner loop walks over enemies the shot misses. *)
Lemma shotEnemyInner_skip shot i g pre rest :
  enemies g = pre ++ rest ->
  hits_some shot pre = false ->
  forall m j fuel,
    (j + m = length pre)%nat ->
    SpaceGame.shotEnemyInner (m + fuel) shot i j g =
    SpaceGame.shotEnemyInner fuel shot i (length pre) g.
Proof.
  intros He Hn. induction m as [| m IH]; intros j fuel Hj.
  - rewrite Nat.add_0_r in Hj. subst j. reflexivity.
  - assert (Hlt : (j < length pre)%nat) by lia.
    destruct (nth_error pre j) as [e |] eqn:E;
      [| apply nth_error_None in E; lia].
    cbn [Nat.add].
    erewrite shotEnemyInner_miss.
    + apply IH. lia.
    + rewrite He, nth_error_app1 by exact Hlt. exact E.
    + apply (hits_some_false _ _ Hn). eapply nth_error_In. exact E.
Qed.

(** The outer loop walks over shots that miss every enemy. *)
Lemma shotEnemyOuter_skip g pre rest :
  SpaceGame.shots g = pre ++ rest ->
  (forall s, In s pre -> hits_some s (enemies g) = false) ->
  forall m i fuel,
    (i + m = length pre)%nat ->
    SpaceGame.shotEnemyOuter (m + fuel) i g =
    SpaceGame.shotEnemyOuter fuel (length pre) g.
Proof.
  intros Hs Hn. induction m as [| m IH]; intros i fuel Hi.
  - rewrite Nat.add_0_r in Hi. subst i. reflexivity.
  - assert (Hlt : (i < length pre)%nat) by lia.
    destruct (nth_error pre i) as [s |] eqn:E;
      [| apply nth_error_None in E; lia].
    cbn [Nat.add].
    erewrite shotEnemyOuter_step.
    + apply IH. lia.
    + rewrite Hs, nth_error_app1 by exact Hlt. exact E.
    + apply shotEnemyInner_no_hit; [| lia].
      apply Hn. eapply nth_error_In. exact E.
Qed.

(** X3. When exactly one shot overlaps exactly one enemy (the shot
    misses every other enemy, and every other shot misses every enemy),
    wherever the two stand in their arrays, [handleShotEnemyCollision]
    removes that shot and that enemy and keeps all the others in
    order. *)
Theorem single_overlap_removes_the_pair (g : SpaceGame.t)
    (spre spost : list PlayerWeaponShot.t) (shot : PlayerWeaponShot.t)
    (epre epost : list Enemy.t) (enemy : Enemy.t) :
  SpaceGame.shots g = spre ++ shot :: spost ->
  enemies g = epre ++ enemy :: epost ->
  HitBox.collision (PlayerWeaponShot.hitbox shot) (Enemy.hitbox enemy) = true ->
  hits_some shot (epre ++ epost) = false ->
  (forall s, In s (spre ++ spost) -> hits_some s (enemies g) = false) ->
  SpaceGame.handleShotEnemyCollision g
  = Some (with_collections g (spre ++ spost) (epre ++ epost)).
Proof.
  intros Hs He Hc Hshot Hothers.
  set (g1 := with_collections g (spre ++ spost) (epre ++ epost)).
  assert (Hincl : incl (epre ++ epost) (enemies g)).
  { rewrite He. intros e H. apply in_app_or in H. apply in_or_app.
    destruct H; [left | right; right]; assumption. }
  (* the inner loop for [shot] *)
  assert (Inner :
    SpaceGame.shotEnemyInner (S (length (enemies g))) shot (length spre) 0 g
    = Some g1).
  { replace (S (length (enemies g)))
      with (length epre + S (S (length epost)))%nat
      by (rewrite He, length_app; cbn; lia).
    rewrite (@shotEnemyInner_skip shot (length spre) g epre (enemy :: epost)
               He); [| | reflexivity].
    - erewrite shotEnemyInner_hit;
        [| rewrite He; apply nth_error_middle | exact Hc].
      rewrite Hs, He, !splice1_middle. fold g1.
      apply shotEnemyInner_no_hit; [exact Hshot |].
      unfold g1. rewrite with_collections_enemies, length_app. lia.
    - eapply hits_some_incl; [| exact Hshot].
      intros e H. apply in_or_app. left. exact H. }
  unfold SpaceGame.handleShotEnemyCollision.
  replace (S (length (SpaceGame.shots g)))
    with (length spre + S (S (length spost)))%nat
    by (rewrite Hs, length_app; cbn; lia).
  rewrite (@shotEnemyOuter_skip g spre (shot :: spost) Hs); [| | reflexivity].
  - erewrite shotEnemyOuter_step;
      [| rewrite Hs; apply nth_error_middle | exact Inner].
    apply shotEnemyOuter_no_hit.
    + unfold some_overlap, g1.
      rewrite with_collections_shots, with_collections_enemies.
      destruct (existsb _ _) eqn:X; [| reflexivity].
      apply existsb_exists in X. destruct X as (s & Hin & Hh).
      rewrite (@hits_some_incl s _ _ Hincl (Hothers s Hin)) in Hh. discriminate.
    + unfold g1. rewrite with_collections_shots, length_app. lia.
  - intros s H. apply Hothers. apply in_or_app. left. exact H.
Qed.

(** Three shots and three enemies on the 800 by 600 field: the middle
    shot, at (10, 10), lies in the box of the middle enemy, not yet drawn
    and so at the origin; the outer shots are at (500, 500) and the outer
    enemies, drawn, on the left edge, clear of every shot. *)
Lemma single_overlap_removes_the_pair_witness :
  let far_shot := PlayerWeaponShot.new 500 500 Left 30 in
  let shot := PlayerWeaponShot.new 10 10 Up 30 in
  let enemy := origin_enemy Down in
  let far_enemy := Enemy.draw (origin_enemy Right) in
  let g := with_collections (SpaceGame.new arena)
             [far_shot; shot; far_shot] [far_enemy; enemy; far_enemy] in
  SpaceGame.handleShotEnemyCollision g
  = Some (with_collections g [far_shot; far_shot] [far_enemy; far_enemy]).
Proof.
  intros far_shot shot enemy far_enemy g.
  apply (@single_overlap_removes_the_pair g [far_shot] [far_shot] shot
           [far_enemy] [far_enemy] enemy);
    try reflexivity.
  intros s [<- | [<- | []]]; reflexivity.
Defined.

(** ** What every reachable game looks like *)

Lemma handleDirectionChange_spec (p : Player.t) :
  Player.handleDirectionChange p =
  Player.set_weapon p
    (PlayerWeapon.adjustWeapon (Player.weapon p)
       (HitBox.x (weaponBox p)) (HitBox.y (weaponBox p))
       (HitBox.w (weaponBox p)) (HitBox.h (weaponBox p))).
Proof.
  destruct p as [x y w h wp d hb]. destruct d; reflexivity.
Qed.

Lemma shot_draw_ok s : shot_ok s -> shot_ok (PlayerWeaponShot.draw s).
Proof.
  destruct s as [x y d dw [hx hy hw hh]]. unfold shot_ok.
  destruct d; cbn; tauto.
Qed.

Lemma shot_update_ok s : shot_ok s -> shot_ok (PlayerWeaponShot.update s).
Proof.
  unfold shot_ok. destruct (shot_update_frame s) as (_ & _ & ->). tauto.
Qed.

Lemma enemy_draw_ok c e : enemy_ok c e -> enemy_ok c (Enemy.draw e).
Proof.
  destruct e as [c' d x y sz [hx hy hw hh]]. unfold enemy_ok.
  destruct d; cbn; tauto.
Qed.

Lemma enemy_update_ok c e : enemy_ok c e -> enemy_ok c (Enemy.update e).
Proof.
  unfold enemy_ok.
  destruct (enemy_update_frame e) as (-> & _ & -> & ->). tauto.
Qed.

Lemma enemy_new_ok c d : enemy_ok c (Enemy.new c d).
Proof. repeat split. Qed.

Lemma Forall_subseq {A : Type} (P : A -> Prop) (l1 l2 : list A) :
  subseq l1 l2 -> Forall P l2 -> Forall P l1.
Proof.
  intros H F. apply Forall_forall. intros v Hv.
  apply (proj1 (Forall_forall P l2) F). exact (subseq_incl H v Hv).
Qed.

Lemma Forall_map_ok {A : Type} (P : A -> Prop) (f : A -> A) (l : list A) :
  (forall v, P v -> P (f v)) -> Forall P l -> Forall P (map f l).
Proof. intros Hf. induction 1; cbn; constructor; auto. Qed.

(** Replacing the shots keeps a player well formed when the new shots
    are. *)
Lemma player_ok_set_shots c p s :
  player_ok c p -> Forall shot_ok s ->
  player_ok c (Player.set_weapon p (PlayerWeapon.set_shots (Player.weapon p) s)).
Proof.
  intros (Hx & Hy & Hw & Hh & Hb & Hdw & Hdh & Hwb & Hr & Ha & _) Hs.
  destruct p as [x y w h wp d hb]. destruct wp.
  unfold player_ok. cbn in *. tauto.
Qed.

Lemma player_new_ok c : player_ok c (Player.new c).
Proof.
  unfold Player.new. cbv zeta. rewrite handleDirectionChange_spec.
  unfold player_ok, ammo_ok. cbn.
  repeat (split; [first [reflexivity | lia] |]). constructor.
Qed.

Lemma changeDirection_ok c p d :
  player_ok c p -> player_ok c (Player.changeDirection p d).
Proof.
  intros (Hx & Hy & Hw & Hh & Hb & Hdw & Hdh & _ & _ & Ha & Hs).
  unfold Player.changeDirection. rewrite handleDirectionChange_spec.
  destruct p as [x y w h wp d0 hb]. destruct wp.
  unfold player_ok. cbn in *.
  repeat (split; [first [assumption | destruct d; reflexivity] |]).
  exact Hs.
Qed.

Lemma fire_ok c p :
  player_ok c p ->
  player_ok c
    (Player.set_weapon p
       (PlayerWeapon.fire (Player.weapon p) (Player.direction p))).
Proof.
  intros H.
  pose proof H as (Hx & Hy & Hw & Hh & Hb & Hdw & Hdh & Hwb & Hr & Ha & Hs).
  unfold PlayerWeapon.fire.
  destruct (PlayerWeapon.ammo (Player.weapon p) <=? 0)%Z eqn:E.
  - destruct p as [x y w h wp d hb]. exact H.
  - apply Z.leb_gt in E.
    destruct p as [x y w h wp d hb]. destruct wp.
    unfold player_ok, ammo_ok in *. cbn in *.
    repeat (split; [first [assumption | lia] |]).
    constructor; [split; reflexivity | assumption].
Qed.

Lemma reload_ok c p :
  player_ok c p ->
  player_ok c
    (Player.set_weapon p (PlayerWeapon.reload (Player.weapon p))).
Proof.
  intros H.
  pose proof H as (Hx & Hy & Hw & Hh & Hb & Hdw & Hdh & Hwb & Hr & Ha & Hs).
  unfold PlayerWeapon.reload.
  destruct (PlayerWeapon.ammo (Player.weapon p) >? 0)%Z eqn:E.
  - destruct p as [x y w h wp d hb]. exact H.
  - destruct p as [x y w h wp d hb]. destruct wp.
    unfold player_ok, ammo_ok in *. cbn in *.
    repeat (split; [first [assumption | lia] |]).
    assumption.
Qed.

Lemma handleKeyUpInput_ok c p k :
  player_ok c p -> player_ok c (Player.handleKeyUpInput p k).
Proof.
  intros H. destruct k; cbn [Player.handleKeyUpInput];
    auto using changeDirection_ok, fire_ok, reload_ok.
Qed.

Lemma player_draw_ok c p : player_ok c p -> player_ok c (Player.draw p).
Proof.
  intros H. apply player_ok_set_shots; [exact H |].
  apply Forall_map_ok; [exact shot_draw_ok | apply H].
Qed.

Lemma player_update_ok c p : player_ok c p -> player_ok c (Player.update p).
Proof.
  intros H. apply player_ok_set_shots; [exact H |].
  apply Forall_map_ok; [exact shot_update_ok | apply H].
Qed.

Lemma Forall_incl {A : Type} (P : A -> Prop) (l1 l2 : list A) :
  incl l1 l2 -> Forall P l2 -> Forall P l1.
Proof.
  intros H F. apply Forall_forall. intros v Hv.
  apply (proj1 (Forall_forall P l2) F). exact (H v Hv).
Qed.

Lemma game_ok_shrinks c g g1 : game_ok c g -> shrinks g g1 -> game_ok c g1.
Proof.
  intros (Hc & Hp & He) (s & es & -> & _ & _ & Is & Ie).
  split; [exact Hc |]. split.
  - apply player_ok_set_shots; [exact Hp |].
    apply (Forall_incl Is). apply Hp.
  - exact (Forall_incl Ie He).
Qed.

Lemma game_ok_draw c g : game_ok c g -> game_ok c (SpaceGame.draw g).
Proof.
  intros (Hc & Hp & He). split; [exact Hc |]. split.
  - apply player_draw_ok. exact Hp.
  - apply Forall_map_ok; [apply enemy_draw_ok | exact He].
Qed.

Lemma game_ok_moved c g : game_ok c g -> game_ok c (moved g).
Proof.
  intros (Hc & Hp & He). split; [exact Hc |]. split.
  - apply player_update_ok. exact Hp.
  - apply Forall_map_ok; [apply enemy_update_ok | exact He].
Qed.

Lemma game_ok_animate c g g' :
  game_ok c g -> SpaceGame.animate g = Some g' -> game_ok c g'.
Proof.
  intros H A.
  destruct (animate_shrinks g A) as [-> | (g1 & Sh & Hc & Hp & He)];
    [exact H |].
  pose proof (game_ok_shrinks (game_ok_moved (game_ok_draw H)) Sh)
    as (Hc1 & Hp1 & He1).
  split; [congruence |]. split; [rewrite Hp | rewrite He]; assumption.
Qed.

Lemma game_ok_spawn c g d : game_ok c g -> game_ok c (SpaceGame.spawn g d).
Proof.
  intros (Hc & Hp & He).
  assert (F : Forall (enemy_ok c) (enemies (SpaceGame.spawnUnshift g d))).
  { cbn. constructor; [rewrite Hc; apply enemy_new_ok | exact He]. }
  unfold SpaceGame.spawn. cbv zeta. destruct (_ <=? _)%nat.
  - split; [exact Hc |]. split; [exact Hp |].
    exact (Forall_subseq (subseq_removelast _) F).
  - split; [exact Hc |]. split; [exact Hp | exact F].
Qed.

Lemma game_ok_handle c g e g' :
  game_ok c g -> SpaceGame.handle g e = Some g' -> game_ok c g'.
Proof.
  intros H. destruct e as [| d | k]; cbn [SpaceGame.handle].
  - apply game_ok_animate. exact H.
  - intros [= <-]. apply game_ok_spawn. exact H.
  - intros [= <-]. destruct H as (Hc & Hp & He).
    split; [exact Hc |]. split; [| exact He].
    apply handleKeyUpInput_ok. exact Hp.
Qed.

Lemma game_ok_run c evs : forall g g',
  game_ok c g -> SpaceGame.run evs g = Some g' -> game_ok c g'.
Proof.
  induction evs as [| e evs IH]; intros g g' H; cbn [SpaceGame.run].
  - intros [= <-]. exact H.
  - destruct (SpaceGame.handle g e) as [g1 |] eqn:E; [| discriminate].
    apply IH. eapply game_ok_handle; eassumption.
Qed.

Lemma game_ok_new c : game_ok c (SpaceGame.new c).
Proof.
  split; [reflexivity |]. split; [apply player_new_ok | constructor].
Qed.

Lemma reachable_game_ok (c : Canvas) (evs : list SpaceGame.Event) :
  exists g, SpaceGame.run evs (SpaceGame.new c) = Some g /\ game_ok c g.
Proof.
  destruct (run_total evs (SpaceGame.new c)) as (g & Hg).
  exists g. split; [exact Hg |].
  eapply game_ok_run; [apply game_ok_new | exact Hg].
Qed.



(** X5. Whatever events a game has handled since its construction on the
    canvas [c]: the ammo is between 0 and 3, every shot's hit box is 5 by
    5, and every enemy belongs to the canvas [c], has size 25 and a hit
    box 25 by 25. *)
Theorem reachable_boxes_and_ammo (c : Canvas) (evs : list SpaceGame.Event) :
  exists g,
    SpaceGame.run evs (SpaceGame.new c) = Some g /\
    (0 <= PlayerWeapon.ammo (Player.weapon (player g)) <= 3)%Z /\
    Forall
      (fun s =>
         HitBox.w (PlayerWeaponShot.hitbox s) = 5 /\
         HitBox.h (PlayerWeaponShot.hitbox s) = 5)
      (SpaceGame.shots g) /\
    Forall
      (fun e =>
         Enemy.canvas e = c /\ Enemy.size e = 25 /\
         HitBox.w (Enemy.hitbox e) = 25 /\ HitBox.h (Enemy.hitbox e) = 25)
      (enemies g).
Proof.
  destruct (reachable_game_ok c evs) as (g & Hg & _ & Hp & He).
  exists g. split; [exact Hg |].
  split; [apply Hp |]. split; [apply Hp | exact He].
Qed.

(** ** After the game is over *)

Lemma spawn_gameOver g d : gameOver (SpaceGame.spawn g d) = gameOver g.
Proof.
  unfold SpaceGame.spawn. cbv zeta. destruct (_ <=? _)%nat; reflexivity.
Qed.

Lemma run_over_without_frames evs : forall g,
  gameOver g = true ->
  SpaceGame.run evs g = SpaceGame.run (without_frames evs) g /\
  forall g', SpaceGame.run evs g = Some g' -> gameOver g' = true.
Proof.
  induction evs as [| e evs IH]; intros g Hg.
  - split; [reflexivity |]. now intros g' [= <-].
  - destruct e as [| d | k]; cbn [without_frames filter is_frame negb];
      cbn [SpaceGame.run SpaceGame.handle].
    + unfold SpaceGame.animate. rewrite Hg. apply IH. exact Hg.
    + apply IH. rewrite spawn_gameOver. exact Hg.
    + apply IH. exact Hg.
Qed.

(** X6. Once [gameOver] is true it stays true under every run of events,
    and frames no longer change anything: the run ends in the state that
    the same run without its frames ends in.  Spawn ticks and keys still
    act, since neither the timer nor the key listener is removed. *)
Theorem gameOver_stops_frames_only (g : SpaceGame.t)
    (evs : list SpaceGame.Event) :
  gameOver g = true ->
  exists g',
    SpaceGame.run evs g = Some g' /\
    SpaceGame.run (without_frames evs) g = Some g' /\
    gameOver g' = true.
Proof.
  intros Hg. destruct (run_total evs g) as (g' & Hr).
  destruct (run_over_without_frames evs g Hg) as [E Ho].
  exists g'. split; [exact Hr |]. split; [rewrite <- E; exact Hr |].
  exact (Ho g' Hr).
Qed.

(** A finished game on the 800 by 600 field: two frames around a spawn
    and a shot leave what the spawn and the shot alone leave. *)
Lemma gameOver_stops_frames_only_witness :
  let g := SpaceGame.set_gameOver (SpaceGame.new arena) true in
  let evs := [SpaceGame.Frame; SpaceGame.Spawn Down; SpaceGame.KeyUp Space;
              SpaceGame.Frame] in
  exists g',
    SpaceGame.run evs g = Some g' /\
    SpaceGame.run [SpaceGame.Spawn Down; SpaceGame.KeyUp Space] g = Some g' /\
    gameOver g' = true /\
    length (enemies g') = 1%nat /\ length (SpaceGame.shots g') = 1%nat.
Proof.
  intros g evs.
  destruct (gameOver_stops_frames_only g evs eq_refl) as (g' & H1 & H2 & H3).
  exists g'. split; [exact H1 |]. split; [exact H2 |]. split; [exact H3 |].
  assert (E : Some g' = Some (SpaceGame.set_player (SpaceGame.spawn g Down)
                (Player.handleKeyUpInput
                   (player (SpaceGame.spawn g Down)) Space)))
    by (rewrite <- H2; reflexivity).
  assert (E' : g' = SpaceGame.set_player (SpaceGame.spawn g Down)
                (Player.handleKeyUpInput
                   (player (SpaceGame.spawn g Down)) Space))
    by exact (f_equal (fun o => match o with Some x => x | None => g' end) E).
  rewrite E'. split; reflexivity.
Defined.

(** ** One frame *)

(** X7. A frame on a finished game returns it unchanged.  On a running
    game it returns, and in what it returns: the enemies are a
    subsequence of the old ones, each drawn and then moved once, and so
    are the shots; the boxes the passes tested are therefore the ones
    drawn before the move; canvas, direction, ammo and the boxes of body
    and weapon are as before; and [gameOver] is set exactly when one of
    the enemies left after the shot-enemy pass overlaps the body's or the
    weapon's box. *)
Theorem frame_effect (g : SpaceGame.t) :
  exists g',
    SpaceGame.animate g = Some g' /\
    if gameOver g then g' = g
    else
      subseq (enemies g')
        (map (fun e => Enemy.update (Enemy.draw e)) (enemies g)) /\
      subseq (SpaceGame.shots g')
        (map (fun s => PlayerWeaponShot.update (PlayerWeaponShot.draw s))
           (SpaceGame.shots g)) /\
      subseq (map Enemy.hitbox (enemies g'))
        (map (fun e => Enemy.hitbox (Enemy.draw e)) (enemies g)) /\
      SpaceGame.canvas g' = SpaceGame.canvas g /\
      Player.direction (player g') = Player.direction (player g) /\
      PlayerWeapon.ammo (Player.weapon (player g'))
        = PlayerWeapon.ammo (Player.weapon (player g)) /\
      Player.hitbox (player g') = Player.hitbox (player g) /\
      PlayerWeapon.hitbox (Player.weapon (player g'))
        = PlayerWeapon.hitbox (Player.weapon (player g)) /\
      gameOver g' = existsb (touches_player g) (enemies g').
Proof.
  unfold SpaceGame.animate. destruct (gameOver g) eqn:Hg.
  - exists g. split; reflexivity.
  - rewrite update_unfold.
    destruct (handleShotEnemyCollision_drops (moved (SpaceGame.draw g)))
      as (g1 & -> & s & es & -> & Hs & He).
    eexists. split; [reflexivity |].
    set (g1 := with_collections (moved (SpaceGame.draw g)) s es).
    unfold SpaceGame.handlePlayerWeaponEnemyCollision.
    rewrite playerWeaponEnemyLoop_gameOver.
    destruct (playerWeaponEnemyLoop_frame
                (enemies (SpaceGame.handlePlayerEnemyCollision g1))
                (SpaceGame.handlePlayerEnemyCollision g1)) as (Ec & Ep & Ee).
    unfold SpaceGame.shots. rewrite Ec, Ep, Ee.
    unfold SpaceGame.handlePlayerEnemyCollision.
    rewrite playerEnemyLoop_gameOver.
    destruct (playerEnemyLoop_frame (enemies g1) g1) as (Ec1 & Ep1 & Ee1).
    rewrite Ec1, Ep1, Ee1.
    fold (SpaceGame.shots g1). unfold g1.
    rewrite with_collections_shots, with_collections_enemies.
    rewrite moved_shots, moved_enemies in *.
    cbn in Hs, He. rewrite map_map in Hs, He.
    split; [exact He |]. split; [exact Hs |].
    split.
    { replace (map (fun e => Enemy.hitbox (Enemy.draw e)) (enemies g))
        with (map Enemy.hitbox
                (map (fun e => Enemy.update (Enemy.draw e)) (enemies g))).
      - apply subseq_map. exact He.
      - rewrite map_map. apply map_ext.
        intros e. apply enemy_update_frame. }
    repeat (split; [reflexivity |]).
    cbn [gameOver with_collections SpaceGame.set_enemies SpaceGame.set_shots
         SpaceGame.set_player moved SpaceGame.updateEnemies SpaceGame.draw
         SpaceGame.drawEnemies].
    rewrite Hg. cbn [orb]. unfold touches_player.
    clear. induction es as [| e es IH]; [reflexivity |].
    cbn [existsb]. rewrite <- IH.
    cbn. destruct (HitBox.collision _ _), (HitBox.collision _ _),
      (existsb _ es), (existsb _ es); reflexivity.
Qed.

(** ** The magazine *)

Lemma call_shots_ammo w c :
  ammo_ok w ->
  let w' := call w c in
  (length (PlayerWeapon.shots w') <=
   length (PlayerWeapon.shots w) + count_fire [c])%nat /\
  (Z.of_nat (length (PlayerWeapon.shots w')) + PlayerWeapon.ammo w' <=
   Z.of_nat (length (PlayerWeapon.shots w)) + PlayerWeapon.ammo w
   + 3 * Z.of_nat (count_reload [c]))%Z.
Proof.
  unfold ammo_ok, count_fire, count_reload. intros H.
  destruct c as [d |]; cbv zeta; cbn [call filter length].
  - unfold PlayerWeapon.fire.
    destruct (Z.leb_spec (PlayerWeapon.ammo w) 0); cbn [PlayerWeapon.shots
      PlayerWeapon.ammo unshift length]; lia.
  - unfold PlayerWeapon.reload.
    destruct (Z.gtb_spec (PlayerWeapon.ammo w) 0); cbn [PlayerWeapon.shots
      PlayerWeapon.ammo length]; lia.
Qed.

Lemma calls_shots_ammo cs : forall w,
  ammo_ok w ->
  (length (PlayerWeapon.shots (calls cs w)) <=
   length (PlayerWeapon.shots w) + count_fire cs)%nat /\
  (Z.of_nat (length (PlayerWeapon.shots (calls cs w)))
   + PlayerWeapon.ammo (calls cs w) <=
   Z.of_nat (length (PlayerWeapon.shots w)) + PlayerWeapon.ammo w
   + 3 * Z.of_nat (count_reload cs))%Z.
Proof.
  induction cs as [| c cs IH]; intros w H.
  - cbn. lia.
  - assert (H' : ammo_ok (call w c))
      by (destruct c; cbn; auto using fire_ammo_ok, reload_ammo_ok).
    destruct (call_shots_ammo c H) as [S1 A1].
    destruct (IH (call w c) H') as [S2 A2].
    change (calls (c :: cs) w) with (calls cs (call w c)).
    assert (Cf : count_fire (c :: cs) = (count_fire [c] + count_fire cs)%nat)
      by (unfold count_fire; destruct c; reflexivity).
    assert (Cr : count_reload (c :: cs)
                 = (count_reload [c] + count_reload cs)%nat)
      by (unfold count_reload; destruct c; reflexivity).
    rewrite Cf, Cr. lia.
Qed.

Lemma fires_count (d : PlayerDirection.t) (n : nat) : forall w,
  ammo_ok w ->
  length (PlayerWeapon.shots (calls (repeat (CallFire d) n) w)) =
    (length (PlayerWeapon.shots w)
     + Nat.min n (Z.to_nat (PlayerWeapon.ammo w)))%nat /\
  PlayerWeapon.ammo (calls (repeat (CallFire d) n) w) =
    (PlayerWeapon.ammo w
     - Z.of_nat (Nat.min n (Z.to_nat (PlayerWeapon.ammo w))))%Z.
Proof.
  induction n as [| n IH]; intros w H.
  - cbn. split; lia.
  - change (calls (repeat (CallFire d) (S n)) w)
      with (calls (repeat (CallFire d) n) (PlayerWeapon.fire w d)).
    destruct (IH _ (fire_ammo_ok d H)) as [-> ->].
    unfold ammo_ok in H. unfold PlayerWeapon.fire.
    destruct (Z.leb_spec (PlayerWeapon.ammo w) 0);
      cbn [PlayerWeapon.shots PlayerWeapon.ammo unshift length]; split; lia.
Qed.

(** X8. The magazine holds three shots and a reload cannot top it up:
    after any sequence of [fire] and [reload] calls on a fresh weapon,
    the number of shots fired is at most the number of [fire] calls, and
    shots fired plus ammo left is at most 3 plus 3 per [reload] call; and
    [n] [fire] calls in a row on a fresh weapon fire exactly [min n 3]
    shots and leave [3 - min n 3] ammo. *)
Theorem magazine_of_three (playerWidth : Q) (cs : list WeaponCall)
    (d : PlayerDirection.t) (n : nat) :
  let w := calls cs (PlayerWeapon.new playerWidth) in
  let wn := calls (repeat (CallFire d) n) (PlayerWeapon.new playerWidth) in
  (length (PlayerWeapon.shots w) <= count_fire cs)%nat /\
  (Z.of_nat (length (PlayerWeapon.shots w)) + PlayerWeapon.ammo w
   <= 3 + 3 * Z.of_nat (count_reload cs))%Z /\
  length (PlayerWeapon.shots wn) = Nat.min n 3 /\
  PlayerWeapon.ammo wn = (3 - Z.of_nat (Nat.min n 3))%Z.
Proof.
  intros w wn.
  assert (H : ammo_ok (PlayerWeapon.new playerWidth))
    by (unfold ammo_ok; cbn; lia).
  destruct (calls_shots_ammo cs H) as [S1 A1].
  destruct (fires_count d n H) as [S2 A2].
  cbn in S1, A1, S2, A2.
  repeat split; assumption.
Qed.

(** ** Turning *)

(** X9. Turning twice is turning once to the last direction, whatever
    the player: [changeDirection] places the weapon from the body and
    the weapon's default extent only.  It keeps the body, its hit box,
    the shots in flight and the ammo. *)
Theorem changeDirection_last_wins (p : Player.t) (d1 d2 : PlayerDirection.t) :
  Player.changeDirection (Player.changeDirection p d1) d2
    = Player.changeDirection p d2 /\
  Player.direction (Player.changeDirection p d2) = d2 /\
  Player.hitbox (Player.changeDirection p d2) = Player.hitbox p /\
  Player.x (Player.changeDirection p d2) = Player.x p /\
  Player.y (Player.changeDirection p d2) = Player.y p /\
  PlayerWeapon.shots (Player.weapon (Player.changeDirection p d2))
    = PlayerWeapon.shots (Player.weapon p) /\
  PlayerWeapon.ammo (Player.weapon (Player.changeDirection p d2))
    = PlayerWeapon.ammo (Player.weapon p).
Proof.
  destruct p as [x y w h wp d hb]. destruct wp.
  destruct d1, d2; repeat split.
Qed.

(** ** Overlap as a common point *)




(** ** The flight of an enemy *)

Lemma enemy_updates_position (n : nat) (e : Enemy.t) :
  let e' := Nat.iter n Enemy.update e in
  match Enemy.direction e with
  | Up =>
      Enemy.y e' == Enemy.y e - inject_Z (Z.of_nat n) /\
      Enemy.x e' = Enemy.x e
  | Left =>
      Enemy.x e' == Enemy.x e - inject_Z (Z.of_nat n) /\
      Enemy.y e' = Enemy.y e
  | Down =>
      Enemy.y e' == Enemy.y e + inject_Z (Z.of_nat n) /\
      Enemy.x e' = Enemy.x e
  | Right =>
      Enemy.x e' == Enemy.x e + inject_Z (Z.of_nat n) /\
      Enemy.y e' = Enemy.y e
  end.
Proof.
  cbv zeta. induction n as [| n IH].
  - cbn. destruct (Enemy.direction e); split; first [reflexivity | ring].
  - rewrite Nat.iter_succ.
    pose proof (enemy_update_step (Nat.iter n Enemy.update e)) as St.
    destruct (enemy_updates_frame n e) as (_ & Hd & _).
    rewrite Hd in St.
    rewrite Nat2Z.inj_succ, <- Z.add_1_r, inject_Z_plus.
    destruct (Enemy.direction e); destruct St as [S1 S2];
      destruct IH as [I1 I2]; rewrite S1, S2, I1, I2;
      (split; [cbn; ring | reflexivity]).
Qed.

(** The drawn box of an enemy after [n] updates. *)
Lemma enemy_after_box (c : Canvas) (d : PlayerDirection.t) (n : nat) :
  let hb := Enemy.hitbox (enemy_after c d n) in
  let k := inject_Z (Z.of_nat n) in
  HitBox.w hb = 25 /\ HitBox.h hb = 25 /\
  match d with
  | Up =>
      HitBox.x hb == width c / 2 - 25 / 2 /\
      HitBox.y hb == height c - 25 - k
  | Left =>
      HitBox.x hb == width c - 25 / 2 - k /\
      HitBox.y hb == height c / 2 - 25 / 2
  | Down =>
      HitBox.x hb == width c / 2 - 25 / 2 /\ HitBox.y hb == k - 25
  | Right =>
      HitBox.x hb == k - 25 / 2 /\ HitBox.y hb == height c / 2 - 25 / 2
  end.
Proof.
  cbv zeta. unfold enemy_after.
  pose proof (enemy_updates_position n (Enemy.new c d)) as P.
  destruct (enemy_updates_frame n (Enemy.new c d)) as (Hc & Hd & Hs & Hh).
  cbv zeta in P.
  destruct (Nat.iter n Enemy.update (Enemy.new c d)) as [c' d' x y sz hb].
  cbn in *. subst c' d' sz hb.
  destruct d; cbn; destruct P as [P1 P2]; rewrite P1, P2;
    repeat split; field.
Qed.

(** X11. An enemy that is only updated flies straight along a middle line
    of the canvas: constructed with direction [d] on the canvas [c],
    updated [n] times and drawn, its hit box is 25 by 25 and sits, going
    up, at (width/2 - 25/2, height - 25 - n); going left, at
    (width - 25/2 - n, height/2 - 25/2); going down, at
    (width/2 - 25/2, n - 25); going right, at (n - 25/2, height/2 - 25/2).
    No bound stops it. *)
Theorem enemy_flight (c : Canvas) (d : PlayerDirection.t) (n : nat) :
  let hb := Enemy.hitbox (enemy_after c d n) in
  let k := inject_Z (Z.of_nat n) in
  HitBox.w hb = 25 /\ HitBox.h hb = 25 /\
  match d with
  | Up =>
      HitBox.x hb == width c / 2 - 25 / 2 /\
      HitBox.y hb == height c - 25 - k
  | Left =>
      HitBox.x hb == width c - 25 / 2 - k /\
      HitBox.y hb == height c / 2 - 25 / 2
  | Down =>
      HitBox.x hb == width c / 2 - 25 / 2 /\ HitBox.y hb == k - 25
  | Right =>
      HitBox.x hb == k - 25 / 2 /\ HitBox.y hb == height c / 2 - 25 / 2
  end.
Proof.
  exact (enemy_after_box c d n).
Qed.

(** ** An enemy left alone ends the game *)





(** A pass that finds the flag down either leaves the game as it is or
    raises the flag. *)
Lemma playerEnemyLoop_raised es g :
  SpaceGame.playerEnemyLoop es (SpaceGame.set_gameOver g true)
  = SpaceGame.set_gameOver g true.
Proof.
  induction es as [| e es IH]; [reflexivity |].
  cbn [SpaceGame.playerEnemyLoop].
  destruct (HitBox.collision _ _); exact IH.
Qed.

Lemma playerWeaponEnemyLoop_raised es g :
  SpaceGame.playerWeaponEnemyLoop es (SpaceGame.set_gameOver g true)
  = SpaceGame.set_gameOver g true.
Proof.
  induction es as [| e es IH]; [reflexivity |].
  cbn [SpaceGame.playerWeaponEnemyLoop].
  destruct (HitBox.collision _ _); exact IH.
Qed.

Lemma playerEnemyLoop_cases es g :
  SpaceGame.playerEnemyLoop es g = g \/
  SpaceGame.playerEnemyLoop es g = SpaceGame.set_gameOver g true.
Proof.
  induction es as [| e es IH]; [left; reflexivity |].
  cbn [SpaceGame.playerEnemyLoop].
  destruct (HitBox.collision _ _); cbv zeta.
  - right. apply playerEnemyLoop_raised.
  - exact IH.
Qed.

Lemma playerWeaponEnemyLoop_cases es g :
  SpaceGame.playerWeaponEnemyLoop es g = g \/
  SpaceGame.playerWeaponEnemyLoop es g = SpaceGame.set_gameOver g true.
Proof.
  induction es as [| e es IH]; [left; reflexivity |].
  cbn [SpaceGame.playerWeaponEnemyLoop].
  destruct (HitBox.collision _ _); cbv zeta.
  - right. apply playerWeaponEnemyLoop_raised.
  - exact IH.
Qed.



(** The two game-over passes in a row: the game as it was, or with the
    flag raised. *)
Lemma passes_cases (g : SpaceGame.t) :
  let g' := SpaceGame.handlePlayerWeaponEnemyCollision
              (SpaceGame.handlePlayerEnemyCollision g) in
  (g' = g \/ g' = SpaceGame.set_gameOver g true) /\
  gameOver g' = gameOver g || existsb (touches_player g) (enemies g).
Proof.
  cbv zeta.
  unfold SpaceGame.handlePlayerWeaponEnemyCollision,
    SpaceGame.handlePlayerEnemyCollision.
  split.
  - destruct (playerEnemyLoop_cases (enemies g) g) as [E1 | E1]; rewrite E1.
    + apply playerWeaponEnemyLoop_cases.
    + right. apply playerWeaponEnemyLoop_raised.
  - rewrite playerWeaponEnemyLoop_gameOver, playerEnemyLoop_gameOver.
    destruct (playerEnemyLoop_frame (enemies g) g) as (_ & -> & ->).
    rewrite <- orb_assoc. f_equal. unfold touches_player.
    induction (enemies g) as [| e es IH]; [reflexivity |].
    cbn [existsb]. rewrite <- IH.
    destruct (HitBox.collision _ _), (HitBox.collision _ _),
      (existsb _ es), (existsb _ es); reflexivity.
Qed.










(** ** Runs of spawns *)

(** X13. After a run of spawn events alone on a newly constructed game,
    the collection holds exactly the enemies of the last 19 spawns (all
    of them when there were fewer), the newest first, each as
    constructed. *)
Theorem spawns_keep_last_19 (c : Canvas) (ds : list PlayerDirection.t) :
  exists g,
    SpaceGame.run (map SpaceGame.Spawn ds) (SpaceGame.new c) = Some g /\
    enemies g = map (Enemy.new c) (firstn 19 (rev ds)) /\
    length (enemies g) = Nat.min 19 (length ds) /\
    SpaceGame.shots g = [] /\ gameOver g = false.
Proof.
  exists (spawns ds (SpaceGame.new c)).
  split; [apply run_spawns |].
  assert (E : enemies (spawns ds (SpaceGame.new c))
              = map (Enemy.new c) (firstn 19 (rev ds))).
  { rewrite spawns_enemies by (cbn; lia).
    cbn [SpaceGame.new SpaceGame.canvas enemies].
    rewrite app_nil_r, <- map_rev, firstn_map. reflexivity. }
  split; [exact E |].
  split; [rewrite E, length_map, length_firstn, length_rev; reflexivity |].
  clear E. unfold spawns.
  assert (G : forall g,
             SpaceGame.shots (fold_left SpaceGame.spawn ds g) = SpaceGame.shots g /\
             gameOver (fold_left SpaceGame.spawn ds g) = gameOver g).
  { induction ds as [| d ds IH]; intros g; [split; reflexivity |].
    cbn [fold_left]. destruct (IH (SpaceGame.spawn g d)) as [-> ->].
    unfold SpaceGame.spawn. cbv zeta. destruct (_ <=? _)%nat; split; reflexivity. }
  destruct (G (SpaceGame.new c)) as [-> ->]. split; reflexivity.
Qed.

(** ** Shots in flight *)

Lemma shot_frame_frame (s : PlayerWeaponShot.t) :
  PlayerWeaponShot.direction (shot_frame s) = PlayerWeaponShot.direction s /\
  match PlayerWeaponShot.direction s with
  | Up =>
      PlayerWeaponShot.y (shot_frame s) = PlayerWeaponShot.y s - 3 /\
      PlayerWeaponShot.x (shot_frame s) = PlayerWeaponShot.x s
  | Left =>
      PlayerWeaponShot.x (shot_frame s) = PlayerWeaponShot.x s - 3 /\
      PlayerWeaponShot.y (shot_frame s) = PlayerWeaponShot.y s
  | Down =>
      PlayerWeaponShot.y (shot_frame s) = PlayerWeaponShot.y s + 3 /\
      PlayerWeaponShot.x (shot_frame s) = PlayerWeaponShot.x s
  | Right =>
      PlayerWeaponShot.x (shot_frame s) = PlayerWeaponShot.x s + 3 /\
      PlayerWeaponShot.y (shot_frame s) = PlayerWeaponShot.y s
  end.
Proof.
  destruct s as [x y d dw hb]. destruct d; cbn; repeat split.
Qed.

Lemma shot_frames_position (n : nat) (s : PlayerWeaponShot.t) :
  let s' := Nat.iter n shot_frame s in
  let k := 3 * inject_Z (Z.of_nat n) in
  PlayerWeaponShot.direction s' = PlayerWeaponShot.direction s /\
  match PlayerWeaponShot.direction s with
  | Up =>
      PlayerWeaponShot.y s' == PlayerWeaponShot.y s - k /\
      PlayerWeaponShot.x s' = PlayerWeaponShot.x s
  | Left =>
      PlayerWeaponShot.x s' == PlayerWeaponShot.x s - k /\
      PlayerWeaponShot.y s' = PlayerWeaponShot.y s
  | Down =>
      PlayerWeaponShot.y s' == PlayerWeaponShot.y s + k /\
      PlayerWeaponShot.x s' = PlayerWeaponShot.x s
  | Right =>
      PlayerWeaponShot.x s' == PlayerWeaponShot.x s + k /\
      PlayerWeaponShot.y s' = PlayerWeaponShot.y s
  end.
Proof.
  cbv zeta. induction n as [| n [Hd IH]].
  - split; [reflexivity |]. cbn.
    destruct (PlayerWeaponShot.direction s); split; first [reflexivity | ring].
  - rewrite Nat.iter_succ.
    destruct (shot_frame_frame (Nat.iter n shot_frame s)) as [Hd' St].
    rewrite Hd in St. split; [congruence |].
    rewrite Nat2Z.inj_succ, <- Z.add_1_r, inject_Z_plus.
    destruct (PlayerWeaponShot.direction s); destruct St as [S1 S2];
      destruct IH as [I1 I2]; rewrite S1, S2, I1, I2;
      (split; [cbn; ring | reflexivity]).
Qed.

Lemma some_overlap_no_enemy g : enemies g = [] -> some_overlap g = false.
Proof.
  intros E. unfold some_overlap. rewrite E.
  induction (SpaceGame.shots g) as [| s l IH]; [reflexivity | exact IH].
Qed.

Lemma passes_no_enemy g :
  enemies g = [] ->
  SpaceGame.handlePlayerWeaponEnemyCollision
    (SpaceGame.handlePlayerEnemyCollision g) = g.
Proof.
  intros E.
  unfold SpaceGame.handlePlayerWeaponEnemyCollision,
    SpaceGame.handlePlayerEnemyCollision.
  rewrite E. cbn [SpaceGame.playerEnemyLoop]. rewrite E. reflexivity.
Qed.

Lemma moved_draw_no_enemy g :
  enemies g = [] -> enemies (moved (SpaceGame.draw g)) = [].
Proof.
  intros E. rewrite moved_enemies.
  cbn [SpaceGame.draw SpaceGame.drawEnemies SpaceGame.set_enemies
    SpaceGame.set_player enemies].
  rewrite E. reflexivity.
Qed.

(** One frame of a running game with no enemy. *)
Lemma animate_no_enemy g :
  enemies g = [] -> gameOver g = false ->
  SpaceGame.animate g = Some (moved (SpaceGame.draw g)).
Proof.
  intros E Hg. unfold SpaceGame.animate. rewrite Hg, update_unfold.
  pose proof (moved_draw_no_enemy g E) as E'.
  unfold SpaceGame.handleShotEnemyCollision.
  rewrite shotEnemyOuter_no_hit;
    [| apply some_overlap_no_enemy; exact E' | lia].
  rewrite (passes_no_enemy _ E'). reflexivity.
Qed.

Lemma frames_no_enemy (n : nat) : forall g,
  enemies g = [] -> gameOver g = false ->
  exists g',
    SpaceGame.run (repeat SpaceGame.Frame n) g = Some g' /\
    enemies g' = [] /\ gameOver g' = false /\
    SpaceGame.shots g' = map (Nat.iter n shot_frame) (SpaceGame.shots g) /\
    PlayerWeapon.ammo (Player.weapon (player g'))
      = PlayerWeapon.ammo (Player.weapon (player g)).
Proof.
  induction n as [| n IH]; intros g E Hg.
  - exists g. cbn [repeat SpaceGame.run Nat.iter].
    rewrite map_id. auto.
  - destruct (IH (moved (SpaceGame.draw g))) as (g' & R & E' & Hg' & S' & A').
    + apply moved_draw_no_enemy. exact E.
    + exact Hg.
    + exists g'. cbn [repeat SpaceGame.run SpaceGame.handle].
      rewrite (animate_no_enemy g E Hg).
      split; [exact R |]. split; [exact E' |]. split; [exact Hg' |].
      split; [| exact A'].
      rewrite S', moved_shots. cbn [SpaceGame.draw SpaceGame.drawEnemies
        SpaceGame.set_enemies SpaceGame.set_player SpaceGame.shots player
        Player.draw Player.set_weapon Player.weapon PlayerWeapon.draw
        PlayerWeapon.drawShots PlayerWeapon.set_shots PlayerWeapon.shots].
      rewrite !map_map. apply map_ext. intros s.
      change (PlayerWeaponShot.update (PlayerWeaponShot.draw s))
        with (shot_frame s).
      symmetry. apply Nat.iter_succ_r.
Qed.

(** X14. Shots are never retired for leaving the field: in a running game
    with no enemy, any number [n] of frames keeps every shot, in order,
    keeps the ammo, and takes each shot [3 n] further along its
    direction, the other coordinate unchanged. *)
Theorem shots_fly_on (g : SpaceGame.t) (n : nat) :
  enemies g = [] -> gameOver g = false ->
  exists g',
    SpaceGame.run (repeat SpaceGame.Frame n) g = Some g' /\
    gameOver g' = false /\
    PlayerWeapon.ammo (Player.weapon (player g'))
      = PlayerWeapon.ammo (Player.weapon (player g)) /\
    SpaceGame.shots g' = map (Nat.iter n shot_frame) (SpaceGame.shots g) /\
    length (SpaceGame.shots g') = length (SpaceGame.shots g) /\
    Forall
      (fun s =>
         let s' := Nat.iter n shot_frame s in
         let k := 3 * inject_Z (Z.of_nat n) in
         match PlayerWeaponShot.direction s with
         | Up =>
             PlayerWeaponShot.y s' == PlayerWeaponShot.y s - k /\
             PlayerWeaponShot.x s' = PlayerWeaponShot.x s
         | Left =>
             PlayerWeaponShot.x s' == PlayerWeaponShot.x s - k /\
             PlayerWeaponShot.y s' = PlayerWeaponShot.y s
         | Down =>
             PlayerWeaponShot.y s' == PlayerWeaponShot.y s + k /\
             PlayerWeaponShot.x s' = PlayerWeaponShot.x s
         | Right =>
             PlayerWeaponShot.x s' == PlayerWeaponShot.x s + k /\
             PlayerWeaponShot.y s' = PlayerWeaponShot.y s
         end)
      (SpaceGame.shots g).
Proof.
  intros E Hg.
  destruct (frames_no_enemy n g E Hg) as (g' & R & _ & Hg' & S' & A').
  exists g'. split; [exact R |]. split; [exact Hg' |]. split; [exact A' |].
  split; [exact S' |]. split; [rewrite S'; apply length_map |].
  apply Forall_forall. intros s _. apply shot_frames_position.
Qed.

(** The game on the 800 by 600 field after one shot fired up: 100 frames
    later the shot is still there, 300 higher, at height -60. *)
Lemma shots_fly_on_witness :
  let g := SpaceGame.set_player (SpaceGame.new arena)
             (Player.handleKeyUpInput (Player.new arena) Space) in
  exists g',
    SpaceGame.run (repeat SpaceGame.Frame 100) g = Some g' /\
    length (SpaceGame.shots g') = 1%nat /\
    Forall (fun s => PlayerWeaponShot.y s == -60) (SpaceGame.shots g').
Proof.
  intros g.
  destruct (@shots_fly_on g 100 eq_refl eq_refl)
    as (g' & R & _ & _ & S' & L & _).
  exists g'. split; [exact R |]. split; [rewrite L; reflexivity |].
  rewrite S'. repeat constructor.
Defined.

Lemma shot_frames_ok (k : nat) (s : PlayerWeaponShot.t) :
  shot_ok s -> shot_ok (Nat.iter k shot_frame s).
Proof.
  intros H. induction k as [| k IH]; [exact H |].
  rewrite Nat.iter_succ. apply shot_update_ok, shot_draw_ok, IH.
Qed.

Lemma shot_frames_width (k : nat) (s : PlayerWeaponShot.t) :
  PlayerWeaponShot.defaultWeaponWidth (Nat.iter k shot_frame s)
  = PlayerWeaponShot.defaultWeaponWidth s.
Proof.
  induction k as [| k IH]; [reflexivity |].
  rewrite Nat.iter_succ, <- IH.
  destruct (Nat.iter k shot_frame s) as [x' y' d' dw' hb'].
  destruct d'; reflexivity.
Qed.

(** The drawn box of a shot after [k] frames. *)
Lemma shot_after_box (x y dw : Q) (d : PlayerDirection.t) (k : nat) :
  let hb := PlayerWeaponShot.hitbox
              (shot_after (PlayerWeaponShot.new x y d dw) k) in
  let t := 3 * inject_Z (Z.of_nat k) in
  HitBox.w hb = 5 /\ HitBox.h hb = 5 /\
  match d with
  | Up => HitBox.x hb == x + 5 / 2 /\ HitBox.y hb == y - t - 5
  | Left => HitBox.x hb == x - t - 5 /\ HitBox.y hb == y + 5 / 2
  | Down => HitBox.x hb == x + 5 / 2 /\ HitBox.y hb == y + t + dw - 5
  | Right => HitBox.x hb == x + t + dw - 5 /\ HitBox.y hb == y + 5 / 2
  end.
Proof.
  cbv zeta. unfold shot_after.
  pose proof (@shot_frames_ok k (PlayerWeaponShot.new x y d dw)
                (conj eq_refl eq_refl)) as Hok.
  pose proof (shot_frames_width k (PlayerWeaponShot.new x y d dw)) as Hdw.
  cbn [PlayerWeaponShot.new PlayerWeaponShot.defaultWeaponWidth] in Hdw.
  pose proof (shot_frames_position k (PlayerWeaponShot.new x y d dw)) as P.
  cbv zeta in P. destruct P as [Hd P].
  destruct Hok as [Hw Hh].
  destruct (Nat.iter k shot_frame (PlayerWeaponShot.new x y d dw))
    as [x' y' d' dw' [hx hy hw hh]].
  cbn in Hd, P, Hw, Hh, Hdw. subst d' dw' hw hh.
  unfold PlayerWeaponShot._size.
  destruct d; cbn; destruct P as [P1 P2]; rewrite P1, P2;
    unfold PlayerWeaponShot._size; repeat split; field.
Qed.

(** X15. A shot that is only drawn and moved flies straight: constructed
    at [(x, y)] with direction [d] and the weapon's default width [dw],
    its hit box after [k] frames is 5 by 5 and is drawn, going up, at
    (x + 5/2, y - 3k - 5); going left, at (x - 3k - 5, y + 5/2); going
    down, at (x + 5/2, y + 3k + dw - 5); going right, at
    (x + 3k + dw - 5, y + 5/2). *)
Theorem shot_flight (x y dw : Q) (d : PlayerDirection.t) (k : nat) :
  let hb := PlayerWeaponShot.hitbox
              (shot_after (PlayerWeaponShot.new x y d dw) k) in
  let t := 3 * inject_Z (Z.of_nat k) in
  HitBox.w hb = 5 /\ HitBox.h hb = 5 /\
  match d with
  | Up => HitBox.x hb == x + 5 / 2 /\ HitBox.y hb == y - t - 5
  | Left => HitBox.x hb == x - t - 5 /\ HitBox.y hb == y + 5 / 2
  | Down => HitBox.x hb == x + 5 / 2 /\ HitBox.y hb == y + t + dw - 5
  | Right => HitBox.x hb == x + t + dw - 5 /\ HitBox.y hb == y + 5 / 2
  end.
Proof.
  exact (shot_after_box x y dw d k).
Qed.

(** ** A shot fired head-on *)

Lemma frames_to_close_bounds (gap : Q) :
  0 <= gap ->
  let k := inject_Z (Z.of_nat (frames_to_close gap)) in
  gap < 4 * k /\ 4 * k <= gap + 4.
Proof.
  intros Hg. cbv zeta. unfold frames_to_close.
  assert (H0 : (0 <= Qfloor (gap / 4))%Z).
  { change 0%Z with (Qfloor 0). apply Qfloor_resp_le.
    unfold Qdiv. change (/ 4) with (1 # 4). lra. }
  rewrite Nat2Z.inj_succ, Z2Nat.id, <- Z.add_1_r, inject_Z_plus by exact H0.
  pose proof (Qfloor_le (gap / 4)) as Lo.
  pose proof (Qlt_floor (gap / 4)) as Hi.
  rewrite inject_Z_plus in Hi.
  unfold Qdiv in *. change (/ 4) with (1 # 4) in *.
  change (inject_Z 1) with 1 in *. split; lra.
Qed.

(** The shot at [(X, Y)] with direction [d], fired on the canvas [c] at
    the enemy coming the other way: boxes by [shot_after_box] and
    [enemy_after_box], then linear arithmetic. *)
Ltac head_on c m X Y d :=
  exists (PlayerWeaponShot.new X Y d (60 / 2));
  split; [reflexivity |]; cbv zeta;
  set (shot := PlayerWeaponShot.new _ _ _ _);
  set (gap := head_on_gap _ _ _);
  intros Hg;
  pose proof (frames_to_close_bounds Hg) as B; cbv zeta in B;
  set (k := frames_to_close gap) in *;
  pose proof (shot_after_box X Y (60 / 2) d 0) as S0;
  pose proof (shot_after_box X Y (60 / 2) d k) as Sk;
  pose proof (enemy_after_box c (opposite d) m) as E0;
  pose proof (enemy_after_box c (opposite d) (m + k)) as Ek;
  cbv zeta in S0, Sk, E0, Ek; fold shot in S0, Sk;
  cbn [opposite] in *;
  destruct S0 as (S0w & S0h & S0x & S0y);
  destruct Sk as (Skw & Skh & Skx & Sky);
  destruct E0 as (E0w & E0h & E0x & E0y);
  destruct Ek as (Ekw & Ekh & Ekx & Eky);
  unfold gap, head_on_gap in B;
  rewrite ?S0w, ?S0h, ?E0w, ?E0h, ?S0x, ?S0y, ?E0x, ?E0y in B;
  apply collision_spec;
  rewrite Skw, Skh, Ekw, Ekh, Skx, Sky, Ekx, Eky;
  rewrite Nat2Z.inj_add, inject_Z_plus;
  change (inject_Z (Z.of_nat 0)) with 0 in B;
  unfold Qdiv in *; change (/ 2) with (1 # 2) in *;
  repeat split; lra.

(** X16. A shot fired head-on cannot pass through the enemy.  The player
    constructed on the canvas [c] that turns to [d] and fires has one
    shot in flight; if the enemy flying the other way, updated [m]
    times, has its drawn box still wholly beyond the box of the shot as
    first drawn, at the distance [gap] along the line of fire, then
    [frames_to_close gap] frames later (a quarter of the gap, rounded
    down, plus one: the two close in by 4 a frame) the box of the shot
    and the box of the enemy overlap. *)
Theorem head_on_shot_meets_enemy (c : Canvas) (d : PlayerDirection.t)
    (m : nat) :
  exists shot,
    fired c d = [shot] /\
    let gap :=
      head_on_gap d (PlayerWeaponShot.hitbox (shot_after shot 0))
        (Enemy.hitbox (enemy_after c (opposite d) m)) in
    (0 <= gap ->
     let k := frames_to_close gap in
     HitBox.collision (PlayerWeaponShot.hitbox (shot_after shot k))
       (Enemy.hitbox (enemy_after c (opposite d) (m + k))) = true).
Proof.
  destruct d.
  - head_on c m ((width c - 60) / 2 + 60 / 2 - 15 / 2)
      ((height c - 60) / 2 - 60 / 2) Up.
  - head_on c m ((width c - 60) / 2 - 60 / 2)
      ((height c - 60) / 2 + 60 / 2 - 15 / 2) Left.
  - head_on c m ((width c - 60) / 2 + 60 / 2 - 15 / 2)
      ((height c - 60) / 2 + 60) Down.
  - head_on c m ((width c - 60) / 2 + 60)
      ((height c - 60) / 2 + 60 / 2 - 15 / 2) Right.
Qed.

(** On the 800 by 600 field, a shot fired up at an enemy that has just
    been constructed: the gap is 235, and 59 frames later the boxes
    overlap. *)
Lemma head_on_shot_meets_enemy_witness :
  exists shot,
    fired arena Up = [shot] /\
    head_on_gap Up (PlayerWeaponShot.hitbox (shot_after shot 0))
      (Enemy.hitbox (enemy_after arena Down 0)) == 235 /\
    HitBox.collision (PlayerWeaponShot.hitbox (shot_after shot 59))
      (Enemy.hitbox (enemy_after arena Down 59)) = true.
Proof.
  destruct (head_on_shot_meets_enemy arena Up 0) as (shot & Hf & H).
  exists shot. split; [exact Hf |].
  assert (Es : hd shot (fired arena Up) = shot) by (rewrite Hf; reflexivity).
  vm_compute in Es. destruct Es.
  split; [reflexivity |].
  cbv zeta in H. refine (H _). vm_compute. discriminate.
Defined.

(** ** Starting *)

Lemma existsb_same {A : Type} (f h : A -> bool) (l : list A) :
  (forall v, f v = h v) -> existsb f l = existsb h l.
Proof.
  intros H. induction l as [| v l IH]; [reflexivity |].
  cbn [existsb]. rewrite H, IH. reflexivity.
Qed.

(** X17. [start] returns on every game and forgets the old flag: it runs
    the frame of the game with [gameOver] cleared, so afterwards
    [gameOver] is true exactly when an enemy left by the shot-enemy pass
    overlaps the body's or the weapon's box.  A finished game is thus
    resumed by [start] unless an enemy still lies on the player. *)
Theorem start_forgets_flag (g : SpaceGame.t) :
  exists g',
    SpaceGame.start g = Some g' /\
    SpaceGame.start (SpaceGame.set_gameOver g true) = Some g' /\
    gameOver g' = existsb (touches_player g) (enemies g') /\
    subseq (enemies g')
      (map (fun e => Enemy.update (Enemy.draw e)) (enemies g)).
Proof.
  unfold SpaceGame.start.
  change (SpaceGame.set_gameOver (SpaceGame.set_gameOver g true) false)
    with (SpaceGame.set_gameOver g false).
  set (g0 := SpaceGame.set_gameOver g false).
  unfold SpaceGame.animate.
  change (gameOver g0) with false. cbv iota.
  rewrite update_unfold.
  destruct (handleShotEnemyCollision_drops (moved (SpaceGame.draw g0)))
    as (g1 & -> & s & es & -> & Hs & He).
  eexists. split; [reflexivity |]. split; [reflexivity |].
  set (g1 := with_collections (moved (SpaceGame.draw g0)) s es).
  destruct (passes_cases g1) as [Hc G]. cbv zeta in Hc, G.
  assert (Ee : enemies (SpaceGame.handlePlayerWeaponEnemyCollision
                          (SpaceGame.handlePlayerEnemyCollision g1)) = es).
  { destruct Hc as [-> | ->]; reflexivity. }
  rewrite G, Ee. split.
  - change (gameOver g1) with false. cbn [orb].
    change (enemies g1) with es. apply existsb_same. intros e. reflexivity.
  - rewrite moved_enemies in He. cbn in He. rewrite map_map in He. exact He.
Qed.
